(** * Azul query layer: immutable query objects, transforms, transactions,
      join aliases and relation caches.

    Query objects are JavaScript objects with identity; a transaction is a
    query object shared by every query chained from it; arrays are objects
    of their own.  The store below keeps the three kinds of objects apart and
    addresses each by its allocation index. *)

From stdpp Require Import base option list strings pretty numbers gmap.

Local Open Scope Z_scope.

(** ** JavaScript numbers as the transaction depth uses them *)

(** [_transactionDepth] is absent until the first [begin], and arithmetic on
    an absent property yields NaN.  Depths are small counters, so the finite
    numbers are integers. *)
Inductive JsNumber :=
| undefined
| NaN
| Num (z : Z).

(** [!n] *)
Definition js_not (n : JsNumber) : bool :=
  match n with
  | Num z => Z.eqb z 0
  | undefined | NaN => true
  end.

(** [n += 1] *)
Definition js_incr (n : JsNumber) : JsNumber :=
  match n with
  | Num z => Num (z + 1)
  | undefined | NaN => NaN
  end.

(** [n -= 1] *)
Definition js_decr (n : JsNumber) : JsNumber :=
  match n with
  | Num z => Num (z - 1)
  | undefined | NaN => NaN
  end.

(** [n === 1] *)
Definition js_is_one (n : JsNumber) : bool :=
  match n with
  | Num z => Z.eqb z 1
  | undefined | NaN => false
  end.

(** ** Objects *)

Abbreviation loc := nat (only parsing).     (* identity of a query object *)
Abbreviation aref := nat (only parsing).    (* identity of an array *)
Abbreviation Client := nat (only parsing).  (* a connection of the pool *)

(** The classes of src/lib/query/entry.js and src/lib/query/select.js. *)
Inductive Identity := EntryQuery | SelectQuery.

(** The values of [_transactionSQLOverride]: 'begin', 'commit', 'rollback'. *)
Inductive TransactionSQL := begin_sql | commit_sql | rollback_sql.

(** What a driver hands back and transforms rewrite. *)
Inductive Value :=
| VUndefined
| VNumber (z : Z)
| VString (s : string)
| VRows (ids : list Z).

(** [Transform~Fn]: the result so far and the type of the query. *)
Definition TransformFn := Value → Identity → Value.

(** A query object.  An absent property is [None]; the three boolean flags
    are only ever tested for truthiness and assigned [true]/[false], so an
    absent flag is [false]. *)
Record Query := mkQuery {
  __identity__ : Identity;
  _tables : option aref;
  _columns : option aref;
  _limit : option Z;
  _offset : option Z;
  _transforms : option aref;
  _transaction : option loc;
  _transactionSQLOverride : option TransactionSQL;
  _transactionDepth : JsNumber;
  _transactionNeedsToAcquireClient : bool;
  _transactionNeedsToReleaseClient : bool;
  _transactionClosed : bool;
  _transactionClient : option Client;
  _transactionClientPromise : option Client;
}.

(** An object on which nothing has been set yet. *)
Definition blank (id : Identity) : Query :=
  mkQuery id None None None None None None None undefined false false false
          None None.

Definition set_tables (v : option aref) (q : Query) : Query :=
  mkQuery (__identity__ q) v (_columns q) (_limit q) (_offset q)
    (_transforms q) (_transaction q) (_transactionSQLOverride q)
    (_transactionDepth q) (_transactionNeedsToAcquireClient q)
    (_transactionNeedsToReleaseClient q) (_transactionClosed q)
    (_transactionClient q) (_transactionClientPromise q).

Definition set_columns (v : option aref) (q : Query) : Query :=
  mkQuery (__identity__ q) (_tables q) v (_limit q) (_offset q)
    (_transforms q) (_transaction q) (_transactionSQLOverride q)
    (_transactionDepth q) (_transactionNeedsToAcquireClient q)
    (_transactionNeedsToReleaseClient q) (_transactionClosed q)
    (_transactionClient q) (_transactionClientPromise q).

Definition set_limit (v : option Z) (q : Query) : Query :=
  mkQuery (__identity__ q) (_tables q) (_columns q) v (_offset q)
    (_transforms q) (_transaction q) (_transactionSQLOverride q)
    (_transactionDepth q) (_transactionNeedsToAcquireClient q)
    (_transactionNeedsToReleaseClient q) (_transactionClosed q)
    (_transactionClient q) (_transactionClientPromise q).

Definition set_offset (v : option Z) (q : Query) : Query :=
  mkQuery (__identity__ q) (_tables q) (_columns q) (_limit q) v
    (_transforms q) (_transaction q) (_transactionSQLOverride q)
    (_transactionDepth q) (_transactionNeedsToAcquireClient q)
    (_transactionNeedsToReleaseClient q) (_transactionClosed q)
    (_transactionClient q) (_transactionClientPromise q).

Definition set_transforms (v : option aref) (q : Query) : Query :=
  mkQuery (__identity__ q) (_tables q) (_columns q) (_limit q) (_offset q)
    v (_transaction q) (_transactionSQLOverride q)
    (_transactionDepth q) (_transactionNeedsToAcquireClient q)
    (_transactionNeedsToReleaseClient q) (_transactionClosed q)
    (_transactionClient q) (_transactionClientPromise q).

Definition set_transaction (v : option loc) (q : Query) : Query :=
  mkQuery (__identity__ q) (_tables q) (_columns q) (_limit q) (_offset q)
    (_transforms q) v (_transactionSQLOverride q)
    (_transactionDepth q) (_transactionNeedsToAcquireClient q)
    (_transactionNeedsToReleaseClient q) (_transactionClosed q)
    (_transactionClient q) (_transactionClientPromise q).

Definition set_override (v : option TransactionSQL) (q : Query) : Query :=
  mkQuery (__identity__ q) (_tables q) (_columns q) (_limit q) (_offset q)
    (_transforms q) (_transaction q) v
    (_transactionDepth q) (_transactionNeedsToAcquireClient q)
    (_transactionNeedsToReleaseClient q) (_transactionClosed q)
    (_transactionClient q) (_transactionClientPromise q).

Definition set_depth (v : JsNumber) (q : Query) : Query :=
  mkQuery (__identity__ q) (_tables q) (_columns q) (_limit q) (_offset q)
    (_transforms q) (_transaction q) (_transactionSQLOverride q)
    v (_transactionNeedsToAcquireClient q)
    (_transactionNeedsToReleaseClient q) (_transactionClosed q)
    (_transactionClient q) (_transactionClientPromise q).

Definition set_needsToAcquire (v : bool) (q : Query) : Query :=
  mkQuery (__identity__ q) (_tables q) (_columns q) (_limit q) (_offset q)
    (_transforms q) (_transaction q) (_transactionSQLOverride q)
    (_transactionDepth q) v
    (_transactionNeedsToReleaseClient q) (_transactionClosed q)
    (_transactionClient q) (_transactionClientPromise q).

Definition set_needsToRelease (v : bool) (q : Query) : Query :=
  mkQuery (__identity__ q) (_tables q) (_columns q) (_limit q) (_offset q)
    (_transforms q) (_transaction q) (_transactionSQLOverride q)
    (_transactionDepth q) (_transactionNeedsToAcquireClient q)
    v (_transactionClosed q)
    (_transactionClient q) (_transactionClientPromise q).

Definition set_closed (v : bool) (q : Query) : Query :=
  mkQuery (__identity__ q) (_tables q) (_columns q) (_limit q) (_offset q)
    (_transforms q) (_transaction q) (_transactionSQLOverride q)
    (_transactionDepth q) (_transactionNeedsToAcquireClient q)
    (_transactionNeedsToReleaseClient q) v
    (_transactionClient q) (_transactionClientPromise q).

Definition set_client (v : option Client) (q : Query) : Query :=
  mkQuery (__identity__ q) (_tables q) (_columns q) (_limit q) (_offset q)
    (_transforms q) (_transaction q) (_transactionSQLOverride q)
    (_transactionDepth q) (_transactionNeedsToAcquireClient q)
    (_transactionNeedsToReleaseClient q) (_transactionClosed q)
    v (_transactionClientPromise q).

Definition set_clientPromise (v : option Client) (q : Query) : Query :=
  mkQuery (__identity__ q) (_tables q) (_columns q) (_limit q) (_offset q)
    (_transforms q) (_transaction q) (_transactionSQLOverride q)
    (_transactionDepth q) (_transactionNeedsToAcquireClient q)
    (_transactionNeedsToReleaseClient q) (_transactionClosed q)
    (_transactionClient q) v.

(** ** The store *)

Record Store := mkStore {
  objects : list Query;
  functionArrays : list (list TransformFn);
  stringArrays : list (list string);
}.

(** [o.f = v], written as an update of the object at [o]. *)
Definition modify (o : loc) (f : Query → Query) (σ : Store) : Store :=
  mkStore (alter f o (objects σ)) (functionArrays σ) (stringArrays σ).

Definition new_object (Q : Query) (σ : Store) : Store * loc :=
  (mkStore (objects σ ++ [Q]) (functionArrays σ) (stringArrays σ),
   length (objects σ)).

Definition new_functionArray (a : list TransformFn) (σ : Store)
  : Store * aref :=
  (mkStore (objects σ) (functionArrays σ ++ [a]) (stringArrays σ),
   length (functionArrays σ)).

Definition new_stringArray (a : list string) (σ : Store) : Store * aref :=
  (mkStore (objects σ) (functionArrays σ) (stringArrays σ ++ [a]),
   length (stringArrays σ)).

(** [a.push(fn)] *)
Definition push (a : aref) (fn : TransformFn) (σ : Store) : Store :=
  mkStore (objects σ) (alter (λ fs, fs ++ [fn]) a (functionArrays σ))
          (stringArrays σ).

(** ** Duplication *)

(** Reading a property of an absent value is a TypeError; the operations
    below return [None] for it. *)

(** Modelled from the spec: [BaseQuery#_take], the root of the [_super]
    chain of the mixins' [_take], is not among the sources.  It hands over
    the adapter, which every query of a store shares; no property of the
    object model above is involved. *)
Definition BaseQuery_take (this orig : loc) (σ : Store) : option Store :=
  _ ← objects σ !! orig; Some σ.

(** Modelled from the spec: the clause mixins (Limit and the like) are not
    among the sources; "duplication deep-copies only the clause being changed
    and array-type clauses, reusing everything else by reference", hence the
    scalar clauses are handed over as they are. *)
Definition Limit_take (this orig : loc) (σ : Store) : option Store :=
  σ ← BaseQuery_take this orig σ;
  O ← objects σ !! orig;
  Some (modify this (set_offset (_offset O))
         (modify this (set_limit (_limit O)) σ)).

(** src/lib/query/mixins/transform.js, [_take]:
    [this._transforms = orig._transforms.slice(0)].  The order in which the
    mixins are stacked is not in the sources; they take disjoint properties,
    so that the order chosen here does not show in the object taken. *)
Definition Transform_take (this orig : loc) (σ : Store) : option Store :=
  σ ← Limit_take this orig σ;
  O ← objects σ !! orig;
  r ← _transforms O;
  fs ← functionArrays σ !! r;
  let '(σ, r') := new_functionArray fs σ in
  Some (modify this (set_transforms (Some r')) σ).

(** src/lib/query/mixins/transaction.js, [_take]:
    [this._transaction = orig._transaction]. *)
Definition Transaction_take (this orig : loc) (σ : Store) : option Store :=
  σ ← Transform_take this orig σ;
  O ← objects σ !! orig;
  Some (modify this (set_transaction (_transaction O)) σ).

(** src/lib/query/select.js, [_take]. *)
Definition SelectQuery_take (this orig : loc) (σ : Store) : option Store :=
  σ ← Transaction_take this orig σ;
  O ← objects σ !! orig;
  t ← _tables O;
  ts ← stringArrays σ !! t;
  let '(σ, t') := new_stringArray ts σ in
  let σ := modify this (set_tables (Some t')) σ in
  match _columns O with
  | None => Some (modify this (set_columns None) σ)
  | Some c =>
      cs ← stringArrays σ !! c;
      let '(σ, c') := new_stringArray cs σ in
      Some (modify this (set_columns (Some c')) σ)
  end.

(** Method dispatch on the class of the receiver. *)
Definition _take (id : Identity) : loc → loc → Store → option Store :=
  match id with
  | EntryQuery => Transaction_take
  | SelectQuery => SelectQuery_take
  end.

(** Modelled from the spec: [BaseQuery#_dup] is not among the sources.
    "Every mutator returns a new Query Node": a new object of the class of
    the receiver takes the state of the receiver through [_take]. *)
Definition _dup (this : loc) (σ : Store) : option (Store * loc) :=
  T ← objects σ !! this;
  let '(σ, dup) := new_object (blank (__identity__ T)) σ in
  σ ← _take (__identity__ T) dup this σ;
  Some (σ, dup).

(** ** Clause mutators *)

(** Modelled from the spec: [limit] and [offset] are not among the sources;
    each "return[s] a duplicate with the relevant clause replaced". *)
Definition limit (n : Z) (this : loc) (σ : Store) : option (Store * loc) :=
  '(σ, dup) ← _dup this σ;
  Some (modify dup (set_limit (Some n)) σ, dup).

Definition offset (n : Z) (this : loc) (σ : Store) : option (Store * loc) :=
  '(σ, dup) ← _dup this σ;
  Some (modify dup (set_offset (Some n)) σ, dup).

(** ** Transforms (src/lib/query/mixins/transform.js) *)

(** [transform(fn)]: [dup._transforms.push(fn)]. *)
Definition transform (fn : TransformFn) (this : loc) (σ : Store)
  : option (Store * loc) :=
  '(σ, dup) ← _dup this σ;
  D ← objects σ !! dup;
  r ← _transforms D;
  _ ← functionArrays σ !! r;
  Some (push r fn σ, dup).

(** The array behind [this._transforms]. *)
Definition transforms_of (this : loc) (σ : Store)
  : option (list TransformFn) :=
  T ← objects σ !! this;
  r ← _transforms T;
  functionArrays σ !! r.

(** [_applyTransforms(result)]: a [reduce] from [result]. *)
Definition _applyTransforms (this : loc) (σ : Store) (result : Value)
  : option Value :=
  T ← objects σ !! this;
  fs ← transforms_of this σ;
  Some (fold_left (λ transformed fn, fn transformed (__identity__ T))
                  fs result).

(** ** Transactions (src/lib/query/mixins/transaction.js) *)

(** [_prepareForTransactionClientAcquire], on the transaction object. *)
Definition prepare_acquire (t : Query) : Query :=
  let t :=
    if js_not (_transactionDepth t)
    then set_needsToAcquire true (set_depth (Num 0) t)
    else t in
  set_depth (js_incr (_transactionDepth t)) t.

Definition _prepareForTransactionClientAcquire (this : loc) (σ : Store)
  : Store :=
  match objects σ !! this ≫= _transaction with
  | None => σ
  | Some t => modify t prepare_acquire σ
  end.

(** [_prepareForTransactionClientRelease], on the transaction object. *)
Definition prepare_release (t : Query) : Query :=
  let t :=
    if js_is_one (_transactionDepth t)
    then set_closed true (set_needsToRelease true t)
    else t in
  set_depth (js_decr (_transactionDepth t)) t.

Definition _prepareForTransactionClientRelease (this : loc) (σ : Store)
  : Store :=
  match objects σ !! this ≫= _transaction with
  | None => σ
  | Some t => modify t prepare_release σ
  end.

(** [begin()]: [dup._transaction = dup._transaction || dup]. *)
Definition begin (this : loc) (σ : Store) : option (Store * loc) :=
  '(σ, dup) ← _dup this σ;
  let σ := modify dup (set_override (Some begin_sql)) σ in
  D ← objects σ !! dup;
  let σ :=
    modify dup (set_transaction (Some (default dup (_transaction D)))) σ in
  Some (_prepareForTransactionClientAcquire dup σ, dup).

(** [commit()] *)
Definition commit (this : loc) (σ : Store) : option (Store * loc) :=
  '(σ, dup) ← _dup this σ;
  let σ := modify dup (set_override (Some commit_sql)) σ in
  Some (_prepareForTransactionClientRelease dup σ, dup).

(** [rollback()] *)
Definition rollback (this : loc) (σ : Store) : option (Store * loc) :=
  '(σ, dup) ← _dup this σ;
  let σ := modify dup (set_override (Some rollback_sql)) σ in
  Some (_prepareForTransactionClientRelease dup σ, dup).

(** [transaction(transaction)], the setter. *)
Definition transaction (t : loc) (this : loc) (σ : Store)
  : option (Store * loc) :=
  T ← objects σ !! this;
  let sql := _transactionSQLOverride T in
  '(σ, dup) ← _dup this σ;
  let σ := modify dup (set_transaction (Some t)) σ in
  let σ :=
    match sql with
    | Some _ => modify dup (set_override sql) σ
    | None => σ
    end in
  match sql with
  | Some rollback_sql | Some commit_sql =>
      Some (_prepareForTransactionClientRelease dup σ, dup)
  | Some begin_sql | None => Some (σ, dup)
  end.

(** ** Execution *)

Inductive Error :=
| MustAssociate (sql : TransactionSQL)
    (* 'Must associate %j with a transaction.' *)
| MustExecuteBegin
    (* 'Must execute `begin` query before using transaction.' *)
| CommittedTransaction
    (* 'Cannot execute query using committed/resolved transaction.' *)
| MustFirstCall
    (* 'Must first call `select`, ... or `bindTable` on query.' *)
| TypeError
| ExecutionError.

(** What is sent to a connection: the phrasing of the override, or the
    statement of the query itself. *)
Inductive Statement :=
| TransactionStatement (sql : TransactionSQL)
| QueryStatement (q : loc).

(** What the adapter sees of a query.  [Acquire] and [Release] are the
    calls the transaction mixin makes on the pool.  A statement is handed
    over with the client of the transaction, or with none ([None]): the
    connection is then the adapter's to find, in its pool, and what the
    adapter does for it is not part of this record. *)
Inductive Event :=
| Acquire (c : Client)
| Release (c : option Client)
| Execute (c : option Client) (s : Statement).

(** The adapter with its pool: the next client the pool hands out, and what
    happened so far, oldest first. *)
Record Adapter := mkAdapter {
  nextClient : Client;
  events : list Event;
}.

Definition acquireAsync (w : Adapter) : Adapter * Client :=
  (mkAdapter (S (nextClient w)) (events w ++ [Acquire (nextClient w)]),
   nextClient w).

Definition release (c : option Client) (w : Adapter) : Adapter :=
  mkAdapter (nextClient w) (events w ++ [Release c]).

(** [_validateBeforeTransactionExecution]: throws, or returns [true]. *)
Definition _validateBeforeTransactionExecution (this : loc) (σ : Store)
  : Error + bool :=
  match objects σ !! this with
  | None => inl TypeError
  | Some T =>
      match _transactionSQLOverride T with
      | Some begin_sql => inr true (* don't throw for beginning *)
      | override =>
          match _transaction T with
          | None =>
              match override with
              | Some sql => inl (MustAssociate sql)
              | None => inr true
              end
          | Some transaction =>
              match objects σ !! transaction with
              | None => inl TypeError
              | Some t =>
                  if _transactionNeedsToAcquireClient t
                  then inl MustExecuteBegin
                  else if _transactionClosed t
                          && negb (bool_decide (is_Some override))
                  then inl CommittedTransaction
                  else inr true
              end
          end
      end
  end.

(** The outcome of a promise: the state everything settled in, and the
    rejection or the value.  Each promise chain is run to its end before the
    next call is made, as in a chain of [then]. *)
Definition Outcome (A : Type) : Type := Store * Adapter * (Error + A).

(** [_beforeTransactionExecution]: the acquisition and its [then] callback,
    settled. *)
Definition _beforeTransactionExecution (this : loc) (σ : Store) (w : Adapter)
  : Outcome unit :=
  match _validateBeforeTransactionExecution this σ with
  | inl e => (σ, w, inl e)
  | inr false => (σ, w, inr ())
  | inr true =>
      match objects σ !! this ≫= _transaction with
      | None => (σ, w, inr ())
      | Some transaction =>
          match objects σ !! transaction with
          | None => (σ, w, inl TypeError)
          | Some t =>
              if _transactionNeedsToAcquireClient t then
                let '(w, client) := acquireAsync w in
                let σ := modify transaction (set_client (Some client)) σ in
                let σ :=
                  modify transaction (set_clientPromise (Some client)) σ in
                let σ := modify transaction (set_needsToAcquire false) σ in
                (σ, w, inr ())
              else (σ, w, inr ())
          end
      end
  end.

(** [_afterTransactionExecution] *)
Definition _afterTransactionExecution (this : loc) (σ : Store) (w : Adapter)
  : Outcome unit :=
  match objects σ !! this ≫= _transaction with
  | None => (σ, w, inr ())
  | Some transaction =>
      match objects σ !! transaction with
      | None => (σ, w, inl TypeError)
      | Some t =>
          if _transactionNeedsToReleaseClient t then
            let w := release (_transactionClient t) w in
            let σ := modify transaction (set_client None) σ in
            let σ := modify transaction (set_needsToRelease false) σ in
            (σ, w, inr ())
          else (σ, w, inr ())
      end
  end.

(** [client()]: the client of the transaction, else that of [_super]. *)
Definition client (this : loc) (σ : Store) : option Client :=
  T ← objects σ !! this;
  transaction ← _transaction T;
  t ← objects σ !! transaction;
  _transactionClient t.

(** [_statement()].  src/lib/query/mixins/transaction.js: the phrasing of
    the override, else that of [_super]; src/lib/query/select.js: the select
    statement of the query; src/lib/query/entry.js: an entry query that has
    neither throws 'Must first call ... on query.'. *)
Definition _statement (this : loc) (σ : Store) : Error + Statement :=
  match objects σ !! this with
  | None => inl TypeError
  | Some T =>
      match _transactionSQLOverride T with
      | Some sql => inr (TransactionStatement sql)
      | None =>
          match __identity__ T with
          | SelectQuery => inr (QueryStatement this)
          | EntryQuery => inl MustFirstCall
          end
      end
  end.

(** A driver: the rows it answers a statement with, or a failure. *)
Definition Driver := Statement → option Value.

(** Modelled from the spec: [BaseQuery#_execute], the [_super] of the
    mixins' [_execute], is not among the sources.  "Dialect Phrasing compiles
    to SQL+args → Transaction Manager supplies (or acquires) the connection →
    the external driver executes → rows return".  The statement is handed
    over with what [client()] finds; when that is no client of a
    transaction, the connection the adapter then takes from its pool and
    gives back is not recorded: nothing below says that the pool is left
    alone in that case. *)
Definition BaseQuery_execute (driver : Driver) (this : loc) (σ : Store)
    (w : Adapter) : Outcome Value :=
  match _statement this σ with
  | inl e => (σ, w, inl e)
  | inr s =>
      let w := mkAdapter (nextClient w)
                         (events w ++ [Execute (client this σ) s]) in
      match driver s with
      | Some rows => (σ, w, inr rows)
      | None => (σ, w, inl ExecutionError)
      end
  end.

(** The [_execute] of the transaction mixin:
    [_beforeTransactionExecution().then(_super)
       .tap(_afterTransactionExecution)]. *)
Definition Transaction_execute (driver : Driver) (this : loc) (σ : Store)
    (w : Adapter) : Outcome Value :=
  match _beforeTransactionExecution this σ w with
  | (σ, w, inl e) => (σ, w, inl e)
  | (σ, w, inr _) =>
      match BaseQuery_execute driver this σ w with
      | (σ, w, inl e) => (σ, w, inl e)
      | (σ, w, inr rows) =>
          match _afterTransactionExecution this σ w with
          | (σ, w, inl e) => (σ, w, inl e)
          | (σ, w, inr _) => (σ, w, inr rows)
          end
      end
  end.

(** The [_execute] of the transform mixin:
    [_super().then(_applyTransforms)]. *)
Definition Transform_execute (driver : Driver) (this : loc) (σ : Store)
    (w : Adapter) : Outcome Value :=
  match Transaction_execute driver this σ w with
  | (σ, w, inl e) => (σ, w, inl e)
  | (σ, w, inr rows) =>
      match _applyTransforms this σ rows with
      | Some result => (σ, w, inr result)
      | None => (σ, w, inl TypeError)
      end
  end.

Definition execute := Transform_execute.

(** ** Views of the store used in the statements *)

(** The state of a query that its own mutators configure: class, tables,
    columns, clauses, transforms, transaction binding and override. *)
Definition configuration (Q : Query) :=
  (__identity__ Q, _tables Q, _columns Q, _limit Q, _offset Q, _transforms Q,
   _transaction Q, _transactionSQLOverride Q).

(** The state a transaction object carries for the queries that share it. *)
Record TransactionState := mkTransactionState {
  depth : JsNumber;
  needsToAcquireClient : bool;
  needsToReleaseClient : bool;
  closed : bool;
  transactionClient : option Client;
}.

Definition transaction_state (t : Query) : TransactionState :=
  mkTransactionState (_transactionDepth t)
    (_transactionNeedsToAcquireClient t) (_transactionNeedsToReleaseClient t)
    (_transactionClosed t) (_transactionClient t).

(** The contents of an optional array of strings. *)
Definition strings_of (a : option aref) (σ : Store) : option (list string) :=
  a ≫= (stringArrays σ !!.).

(** The class and the arrays of a query. *)
Definition arrays (Q : Query) :=
  (__identity__ Q, _transforms Q, _tables Q, _columns Q).

(** [q] is an object of the store whose arrays exist, as those of every
    query made by [_create] or [_dup] do: it has transforms, a select query
    has tables, and no array it refers to is missing. *)
Definition well_formed (σ : Store) (q : loc) : Prop :=
  ∃ Q, objects σ !! q = Some Q
     ∧ is_Some (transforms_of q σ)
     ∧ (__identity__ Q = SelectQuery → is_Some (_tables Q))
     ∧ (∀ a, _tables Q = Some a ∨ _columns Q = Some a →
             is_Some (stringArrays σ !! a)).

(** [q] is bound to the transaction object [t] and carries [override]. *)
Definition bound (σ : Store) (q t : loc) (override : option TransactionSQL)
  : Prop :=
  ∃ Q, objects σ !! q = Some Q
     ∧ _transaction Q = Some t
     ∧ _transactionSQLOverride Q = override.

(** The transaction object [t] is in state [s]. *)
Definition in_state (σ : Store) (t : loc) (s : TransactionState) : Prop :=
  ∃ T, objects σ !! t = Some T ∧ transaction_state T = s.

(** The immutable mutators, as calls on a receiver. *)
Inductive Mutator :=
| call_transform (fn : TransformFn)
| call_transaction (t : loc)
| call_begin
| call_commit
| call_rollback
| call_limit (n : Z)
| call_offset (n : Z).

Definition call (m : Mutator) : loc → Store → option (Store * loc) :=
  match m with
  | call_transform fn => transform fn
  | call_transaction t => transaction t
  | call_begin => begin
  | call_commit => commit
  | call_rollback => rollback
  | call_limit n => limit n
  | call_offset n => offset n
  end.

(** Updates that leave the arrays or the configuration of an object
    alone. *)
Definition keeps_arrays (f : Query → Query) : Prop :=
  ∀ Q, arrays (f Q) = arrays Q.

Definition keeps_configuration (f : Query → Query) : Prop :=
  ∀ Q, configuration (f Q) = configuration Q.

(** [d] in [σ'] is a duplicate of [q] in [σ]: a new object of the same
    class and clauses, bound to the same transaction, without override or
    transaction state, on arrays of its own that hold what those of [q]
    hold; nothing else of the store has changed. *)
Definition duplicates (σ : Store) (q : loc) (σ' : Store) (d : loc) : Prop :=
  d = length (objects σ) ∧
  ∃ Q D fs extra,
    objects σ !! q = Some Q
    ∧ objects σ' = objects σ ++ [D]
    ∧ transforms_of q σ = Some fs
    ∧ functionArrays σ' = functionArrays σ ++ [fs]
    ∧ stringArrays σ' = stringArrays σ ++ extra
    ∧ __identity__ D = __identity__ Q
    ∧ _limit D = _limit Q
    ∧ _offset D = _offset Q
    ∧ _transforms D = Some (length (functionArrays σ))
    ∧ _transaction D = _transaction Q
    ∧ _transactionSQLOverride D = None
    ∧ transaction_state D
      = mkTransactionState undefined false false false None
    ∧ (∀ a, _tables D = Some a ∨ _columns D = Some a →
            (length (stringArrays σ) ≤ a)%nat
            ∧ is_Some (stringArrays σ' !! a))
    ∧ (__identity__ Q = SelectQuery →
         strings_of (_tables D) σ' = strings_of (_tables Q) σ
         ∧ strings_of (_columns D) σ' = strings_of (_columns Q) σ).

(** The object a duplicate of [Q] is once the mixins have taken theirs: the
    result of the [_take] chain below the class's own. *)
Definition taken (Q : Query) (r' : aref) : Query :=
  set_transaction (_transaction Q)
    (set_transforms (Some r')
      (set_offset (_offset Q)
        (set_limit (_limit Q) (blank (__identity__ Q))))).

(** Everything [σ] holds is still in [σ'], up to the transaction state of
    its objects: each object keeps its configuration, each array its
    contents. *)
Definition preserves (σ σ' : Store) : Prop :=
  (∀ p P, objects σ !! p = Some P →
          ∃ P', objects σ' !! p = Some P'
                ∧ configuration P' = configuration P)
  ∧ (∀ r fs, functionArrays σ !! r = Some fs →
             functionArrays σ' !! r = Some fs)
  ∧ (∀ a ss, stringArrays σ !! a = Some ss → stringArrays σ' !! a = Some ss).

(** The query [p] reads in [σ'] as it did in [σ]: same configuration, same
    transforms, same tables and columns. *)
Definition unchanged (σ σ' : Store) (p : loc) : Prop :=
  ∃ P P', objects σ !! p = Some P
        ∧ objects σ' !! p = Some P'
        ∧ configuration P' = configuration P
        ∧ transforms_of p σ' = transforms_of p σ
        ∧ strings_of (_tables P') σ' = strings_of (_tables P) σ
        ∧ strings_of (_columns P') σ' = strings_of (_columns P) σ.

(** No array of [d] is an array of [q]. *)
Definition unaliased (σ : Store) (d q : loc) : Prop :=
  ∃ D Q, objects σ !! d = Some D
       ∧ objects σ !! q = Some Q
       ∧ (∀ r, _transforms D = Some r → _transforms Q ≠ Some r)
       ∧ (∀ a, _tables D = Some a ∨ _columns D = Some a →
               _tables Q ≠ Some a ∧ _columns Q ≠ Some a).

(** [prepare_acquire] and [prepare_release] on the transaction state. *)
Definition acquire_state (s : TransactionState) : TransactionState :=
  if js_not (depth s)
  then mkTransactionState (Num 1) true (needsToReleaseClient s) (closed s)
                          (transactionClient s)
  else mkTransactionState (js_incr (depth s)) (needsToAcquireClient s)
                          (needsToReleaseClient s) (closed s)
                          (transactionClient s).

Definition release_state (s : TransactionState) : TransactionState :=
  if js_is_one (depth s)
  then mkTransactionState (Num 0) (needsToAcquireClient s) true true
                          (transactionClient s)
  else mkTransactionState (js_decr (depth s)) (needsToAcquireClient s)
                          (needsToReleaseClient s) (closed s)
                          (transactionClient s).



(** A chain [q.m1().execute(); .m2().execute(); ...]: each query is built
    on the one before it once that one has been executed. *)
Fixpoint run_chain (driver : Driver) (ms : list Mutator) (this : loc)
    (σ : Store) (w : Adapter) : option (Store * Adapter * loc) :=
  match ms with
  | [] => Some (σ, w, this)
  | m :: ms =>
      '(σ, d) ← call m this σ;
      match execute driver d σ w with
      | (σ, w, inr _) => run_chain driver ms d σ w
      | (_, _, inl _) => None
      end
  end.

(** A chain [q.transform(f1).transform(f2)...]. *)
Fixpoint transform_all (fns : list TransformFn) (this : loc) (σ : Store)
  : option (Store * loc) :=
  match fns with
  | [] => Some (σ, this)
  | fn :: fns => '(σ, d) ← transform fn this σ; transform_all fns d σ
  end.

(** What every mutator establishes, in a form that composes. *)
Definition configured (σ : Store) (q : loc) (σ' : Store) (d : loc) : Prop :=
  objects σ !! d = None
  ∧ (∃ D, objects σ' !! d = Some D
        ∧ _transforms D = Some (length (functionArrays σ)))
  ∧ preserves σ σ' ∧ well_formed σ' d ∧ unaliased σ' d q.

(** Validation, read off the override of the query and the state of its
    transaction. *)
Definition validation (o : option TransactionSQL) (s : TransactionState)
  : Error + bool :=
  match o with
  | Some begin_sql => inr true
  | _ =>
      if needsToAcquireClient s then inl MustExecuteBegin
      else if closed s && negb (bool_decide (is_Some o))
      then inl CommittedTransaction
      else inr true
  end.





(** ** Stores of the examples *)

(** An entry query on its own, as [db.query] is. *)
Definition entry_store : Store :=
  mkStore [set_transforms (Some 0%nat) (blank EntryQuery)] [[]] [].

(** [select('people', ['firstName', 'lastName'])] *)
Definition select_store : Store :=
  mkStore
    [set_columns (Some 1%nat)
       (set_tables (Some 0%nat)
          (set_transforms (Some 0%nat) (blank SelectQuery)))]
    [[]]
    [["people"]; ["firstName"; "lastName"]].

Definition idle_adapter : Adapter := mkAdapter 0 [].

Definition one_row : Driver := λ _, Some (VRows [1]).

(** The store once [begin()] has been called on the entry query and not yet
    executed: object 1 is the transaction. *)
Definition pending_store : Store :=
  Eval vm_compute in default entry_store (fst <$> begin 0%nat entry_store).

(** The store and the adapter once [begin()] and then [commit()] have been
    built and executed in turn: object 1 is the transaction, object 2 the
    commit that closed it. *)
Definition committed : Store * Adapter :=
  Eval vm_compute in
    default (entry_store, idle_adapter)
      (fst <$> run_chain one_row [call_begin; call_commit] 0%nat entry_store
                 idle_adapter).

(** A further [commit()] built on the closed transaction: object 3. *)
Definition committed_twice : Store :=
  Eval vm_compute in
    default committed.1 (fst <$> commit 2%nat committed.1).

(** A plain query chained from the pending transaction with [limit(1)]:
    object 2. *)
Definition pending_query_store : Store :=
  Eval vm_compute in
    default pending_store (fst <$> limit 1 1%nat pending_store).

(** The store and the adapter once [begin()] has been built and executed:
    object 1 is the transaction, on client 0. *)
Definition begun : Store * Adapter :=
  Eval vm_compute in
    default (entry_store, idle_adapter)
      (fst <$> run_chain one_row [call_begin] 0%nat entry_store idle_adapter).

(** A plain query chained from the closed transaction with [limit(1)]:
    object 3. *)
Definition closed_query_store : Store :=
  Eval vm_compute in
    default committed.1 (fst <$> limit 1 2%nat committed.1).

(** Two transforms: keep the first row, then count the rows. *)
Definition first_row : TransformFn :=
  λ result _,
    match result with
    | VRows (id :: _) => VRows [id]
    | other => other
    end.

Definition count_rows : TransformFn :=
  λ result _,
    match result with
    | VRows ids => VNumber (Z.of_nat (length ids))
    | other => other
    end.

(** * The join resolver *)

(** Modelled from the spec: the join resolver (the join mixin of bound
    queries and the relation classes it consults) is not among the sources;
    only its tests are (src/unnamed/part_001, the join tests of
    src/test/relations/many_to_many_tests.js).  The definitions below follow
    §4.3 of the specification, "reuse an existing join if an identical path
    prefix was already joined; otherwise create one with a deterministic
    alias", and are checked against the statements those tests expect. *)

Inductive RelationKind := to_one | to_many.

Record Relation := mkRelation {
  relation_name : string;
  relation_kind : RelationKind;
  relation_target : string;   (* the name of the related entity type *)
}.

Record Entity := mkEntity {
  entity_name : string;
  entity_table : string;
  entity_relations : list Relation;
}.

Definition Schema := list Entity.

Definition find_entity (schema : Schema) (name : string) : option Entity :=
  find (λ e, bool_decide (entity_name e = name)) schema.

Definition find_relation (host : Entity) (name : string) : option Relation :=
  find (λ r, bool_decide (relation_name r = name)) (entity_relations host).

(** One join of a query: the relation path it stands for, the table joined
    and the alias it is joined under. *)
Record JoinSpec := mkJoinSpec {
  join_path : list string;
  join_table : string;
  join_alias : string;
  join_kind : RelationKind;
}.

(** The joins of a query in the order they were made, and whether the query
    is grouped by the primary key of its own table. *)
Record Joined := mkJoined {
  primary : Entity;
  joins : list JoinSpec;
  grouped : bool;
}.

Definition unjoined (e : Entity) : Joined := mkJoined e [] false.

(** The names an alias has to differ from: the primary table and the
    aliases given so far. *)
Definition taken_names (j : Joined) : list string :=
  entity_table (primary j) :: map join_alias (joins j).

(** [name_j1], [name_j2], ... *)
Definition suffixed (name : string) (n : nat) : string :=
  name +:+ "_j" +:+ pretty n.

Fixpoint first_free_suffix (used : list string) (name : string) (n : nat)
    (fuel : nat) : option string :=
  match fuel with
  | O => None
  | S fuel =>
      if bool_decide (suffixed name n ∈ used)
      then first_free_suffix used name (S n) fuel
      else Some (suffixed name n)
  end.

(** Modelled from the spec: the alias generator of the join resolver is not
    among the sources.  The alias of a new join: "first occurrence of a
    relation name uses the bare relation name as alias", a name already in use
    "gets a suffix ([_j1], [_j2], …)": the bare relation name when it is free,
    else the first free suffixed one.  One more candidate than there are names
    in use is enough. *)
Definition unique_alias (used : list string) (name : string)
  : option string :=
  if bool_decide (name ∈ used)
  then first_free_suffix used name 1 (S (length used))
  else Some name.

Definition find_join (path : list string) (j : Joined) : option JoinSpec :=
  find (λ s, bool_decide (join_path s = path)) (joins j).

(** Modelled from the spec: step 3 of §4.3, the resolver being absent from the
    sources.  Join one path prefix: reuse the join of an identical prefix, or
    make a new one.  The flag tells whether a join was made. *)
Definition join_prefix (path : list string) (r : Relation) (target : Entity)
    (j : Joined) : option (Joined * bool) :=
  match find_join path j with
  | Some _ => Some (j, false)
  | None =>
      alias ← unique_alias (taken_names j) (relation_name r);
      Some (mkJoined (primary j)
              (joins j
               ++ [mkJoinSpec path (entity_table target) alias
                              (relation_kind r)])
              (grouped j),
            true)
  end.

Inductive ResolutionError :=
| NoSuchRelation (segment : string) (host : string) (known : list string)
| NoSuchEntity (name : string)
| NoFreeAlias.

(** Modelled from the spec: steps 1 to 3 of §4.3, the resolver being absent
    from the sources.  Walk the segments of a path from [host], joining each
    prefix.  In a condition or an ordering the last segment may name an
    attribute of the entity reached ([attribute = true]); in [join()] every
    segment names a relation. *)
Fixpoint walk (schema : Schema) (attribute : bool) (host : Entity)
    (prefix segments : list string) (j : Joined)
  : ResolutionError + (Joined * bool) :=
  match segments with
  | [] => inr (j, false)
  | segment :: rest =>
      match find_relation host segment with
      | None =>
          if attribute && bool_decide (rest = []) then inr (j, false)
          else inl (NoSuchRelation segment (entity_name host)
                      (map relation_name (entity_relations host)))
      | Some r =>
          match find_entity schema (relation_target r) with
          | None => inl (NoSuchEntity (relation_target r))
          | Some target =>
              let path := prefix ++ [segment] in
              match join_prefix path r target j with
              | None => inl NoFreeAlias
              | Some (j, made) =>
                  match walk schema attribute target path rest j with
                  | inl e => inl e
                  | inr (j, made') => inr (j, made || made')
                  end
              end
          end
      end
  end.

(** Modelled from the spec: [join(path)] of the absent join mixin, "they
    only add the JOIN, not the GROUP BY": the joins of the path, and nothing
    else. *)
Definition join (schema : Schema) (path : list string) (j : Joined)
  : ResolutionError + Joined :=
  match walk schema false (primary j) [] path j with
  | inl e => inl e
  | inr (j, _) => inr j
  end.

(** Modelled from the spec: the automatic join of the absent join mixin, with
    the grouping the tests expect of it.  A field reference in a condition or
    an ordering: the joins its relation path still lacks are made, and making
    one groups the query. *)
Definition reference (schema : Schema) (path : list string) (j : Joined)
  : ResolutionError + Joined :=
  match walk schema true (primary j) [] path j with
  | inl e => inl e
  | inr (j, made) =>
      inr (mkJoined (primary j) (joins j) (grouped j || made))
  end.

(** The calls of a query chain that matter to the resolver; a field
    reference is the dotted key split at the dots. *)
Inductive Clause :=
| join_clause (path : list string)
| where_clause (field : list string)
| order_clause (field : list string).

Definition resolve_clause (schema : Schema) (c : Clause) (j : Joined)
  : ResolutionError + Joined :=
  match c with
  | join_clause path => join schema path j
  | where_clause field | order_clause field => reference schema field j
  end.

Fixpoint resolve (schema : Schema) (cs : list Clause) (j : Joined)
  : ResolutionError + Joined :=
  match cs with
  | [] => inr j
  | c :: cs =>
      match resolve_clause schema c j with
      | inl e => inl e
      | inr j => resolve schema cs j
      end
  end.

(** The relation path of a field reference: its segments up to the last,
    and the last too when it names a relation. *)
Fixpoint relation_path (schema : Schema) (host : Entity)
    (segments : list string) : list Relation :=
  match segments with
  | [] => []
  | segment :: rest =>
      match find_relation host segment with
      | None => []
      | Some r =>
          match find_entity schema (relation_target r) with
          | None => [r]
          | Some target => r :: relation_path schema target rest
          end
      end
  end.

(** The models of the tests. *)
Definition self_join_schema : Schema :=
  [ mkEntity "employee" "employees"
      [ mkRelation "subordinates" to_many "employee";
        mkRelation "manager" to_one "employee" ];
    mkEntity "node" "nodes"
      [ mkRelation "parent" to_one "node";
        mkRelation "nodes" to_many "node" ] ].

Definition Employee : Entity :=
  mkEntity "employee" "employees"
    [ mkRelation "subordinates" to_many "employee";
      mkRelation "manager" to_one "employee" ].

Definition Node : Entity :=
  mkEntity "node" "nodes"
    [ mkRelation "parent" to_one "node";
      mkRelation "nodes" to_many "node" ].

Definition blog_schema : Schema :=
  [ mkEntity "user" "users" [ mkRelation "articles" to_many "article" ];
    mkEntity "article" "articles"
      [ mkRelation "comments" to_many "comment" ];
    mkEntity "comment" "comments" [] ].

Definition User : Entity :=
  mkEntity "user" "users" [ mkRelation "articles" to_many "article" ].

(** * To-many relations: pending changes and the collection cache *)

(** Modelled from the spec: the relation classes ([hasMany], its in-flight
    data, the collection cache and [save]) are not among the sources; only
    their tests are (src/unnamed/part_000,
    src/test/relations/many_to_many_tests.js).  The definitions below follow
    §3 and §4.4 of the specification and are checked against what those
    tests expect.  Instances are told apart by their primary key. *)

(** The in-flight relation change of an owner: what
    [relation._getInFlightData(owner)] answers. *)
Record InFlight := mkInFlight {
  clear : bool;
  add : list Z;
  remove : list Z;
}.

Definition no_changes : InFlight := mkInFlight false [] [].

Definition without (x : Z) (l : list Z) : list Z :=
  filter (λ y, y ≠ x) l.

(** Modelled from the spec: [addObjects] of the absent [hasMany] relation, as
    the sequence test expects it: an addition undoes a pending removal of the
    same instance, else it is recorded once. *)
Definition add_object (x : Z) (i : InFlight) : InFlight :=
  if bool_decide (x ∈ remove i)
  then mkInFlight (clear i) (add i) (without x (remove i))
  else if bool_decide (x ∈ add i) then i
  else mkInFlight (clear i) (add i ++ [x]) (remove i).

(** Modelled from the spec: [removeObjects] of the absent [hasMany] relation,
    as the sequence test expects it: a removal undoes a pending addition of
    the same instance, else it is recorded once. *)
Definition remove_object (x : Z) (i : InFlight) : InFlight :=
  if bool_decide (x ∈ add i)
  then mkInFlight (clear i) (without x (add i)) (remove i)
  else if bool_decide (x ∈ remove i) then i
  else mkInFlight (clear i) (add i) (remove i ++ [x]).

(** Modelled from the spec: [clearObjects] of the absent [hasMany] relation:
    "a clear flush discards prior add/remove intent recorded
    before it". *)
Definition clear_objects (i : InFlight) : InFlight := mkInFlight true [] [].

Definition add_objects (xs : list Z) (i : InFlight) : InFlight :=
  fold_left (λ i x, add_object x i) xs i.

Definition remove_objects (xs : list Z) (i : InFlight) : InFlight :=
  fold_left (λ i x, remove_object x i) xs i.

(** Modelled from the spec: the flush of the absent [hasMany] relation,
    "batched into a single storage statement per direction".  The storage
    statements of a flush for the owner with key [owner]: the clear, then one
    batch per direction. *)
Inductive RelationStatement :=
| ClearRelated (owner : Z)
    (* UPDATE related SET fk = undefined WHERE fk = owner *)
| AddRelated (owner : Z) (ids : list Z)
    (* UPDATE related SET fk = owner WHERE id IN ids *)
| RemoveRelated (ids : list Z).
    (* UPDATE related SET fk = undefined WHERE id IN ids *)

Definition flush (owner : Z) (i : InFlight) : list RelationStatement :=
  (if clear i then [ClearRelated owner] else [])
  ++ (match add i with [] => [] | ids => [AddRelated owner ids] end)
  ++ (match remove i with [] => [] | ids => [RemoveRelated ids] end).

(** Storage accepts a statement or fails on it. *)
Definition Storage := RelationStatement → bool.

(** Modelled from the spec: the adapter stands behind [Storage]; the
    statements reach it in order, up to the first that fails. *)
Fixpoint execute_statements (storage : Storage)
    (stmts : list RelationStatement) : bool * list RelationStatement :=
  match stmts with
  | [] => (true, [])
  | stmt :: stmts =>
      if storage stmt then
        let '(ok, executed) := execute_statements storage stmts in
        (ok, stmt :: executed)
      else (false, [])
  end.

(** The outcome of saving the owner: whether the flush went through, the
    in-flight change afterwards, and the statements storage accepted. *)
Record Saved := mkSaved {
  succeeded : bool;
  in_flight : InFlight;
  executed : list RelationStatement;
}.

(** Modelled from the spec: [save] of the owner, absent from the sources:
    "after a successful flush, the In-Flight Relation Change resets
    to empty; after a failed flush, it is left intact". *)
Definition save (storage : Storage) (owner : Z) (i : InFlight) : Saved :=
  let '(ok, executed) := execute_statements storage (flush owner i) in
  mkSaved ok (if ok then no_changes else i) executed.

(** ** The collection cache *)

(** A related row: its key and the key of the owner it points to. *)
Record Row := mkRow {
  row_id : Z;
  row_owner : option Z;
}.

(** An instance with the collections it has cached, by relation name; a
    relation without an entry is not yet loaded. *)
Record Instance := mkInstance {
  instance_id : Z;
  collections : gmap string (list Row);
}.

Inductive RelationError :=
| NotYetLoaded (relation : string).
    (* 'The relation "articles" has not yet been loaded.' *)

Definition cached (relation : string) (o : Instance) : option (list Row) :=
  collections o !! relation.

(** Modelled from the spec: the collection accessor [owner.articles] of
    the absent relation classes: "Collection-cache access on an unloaded
    relation fails with a descriptive 'not yet loaded' error". *)
Definition collection (relation : string) (o : Instance)
  : RelationError + list Row :=
  match cached relation o with
  | None => inl (NotYetLoaded relation)
  | Some rows => inr rows
  end.

Definition set_collection (relation : string) (rows : list Row)
    (o : Instance) : Instance :=
  mkInstance (instance_id o) (<[relation := rows]> (collections o)).

(** The rows of a result set that belong to an owner, in result order. *)
Definition related_to (o : Instance) (rows : list Row) : list Row :=
  filter (λ r, row_owner r = Some (instance_id o)) rows.

(** Modelled from the spec: [owner.articleObjects.fetch()] of the absent
    relation classes: the rows fetched become the cache. *)
Definition fetch_collection (relation : string) (rows : list Row)
    (o : Instance) : Instance :=
  set_collection relation (related_to o rows) o.

(** Modelled from the spec: [with(relation)] of the absent eager-load
    engine: one follow-up result set for all owners; each owner
    gets the rows that point to it, "an owner with zero related rows must
    still end up with an empty (not missing) cached collection". *)
Definition eager_load (relation : string) (rows : list Row)
    (owners : list Instance) : list Instance :=
  map (fetch_collection relation rows) owners.

(** Modelled from the spec: [associate] of the absent relation classes, as
    the tests 'adds to hasMany collection cache' and 'does not load hasMany
    collection cache' expect it: it updates a collection that is cached and
    loads none. *)
Definition associate (relation : string) (r : Row) (o : Instance)
  : Instance :=
  match cached relation o with
  | None => o
  | Some rows => set_collection relation (rows ++ [r]) o
  end.

(** Modelled from the spec: [fresh] and [create] of the absent model class.
    An instance read from storage ([fresh], or a row of a fetch) has no
    collection loaded; one made by [create] has none to load and starts
    with every collection of its relations empty. *)
Definition fresh (id : Z) : Instance := mkInstance id ∅.

Definition create (id : Z) (relations : list string) : Instance :=
  mkInstance id (list_to_map (map (λ r, (r, [])) relations)).

(** * Programs over a store, chains and what they carry *)

(** ** Sequences of calls on a store *)

(** What a program does with the queries of a store: it builds a query
    from another with a mutator, or executes one.  A rejected execution
    leaves the program running; a mutator that throws builds nothing. *)
Inductive Action :=
| build (m : Mutator) (q : loc)
| run (q : loc).

Fixpoint perform (driver : Driver) (actions : list Action) (σ : Store)
    (w : Adapter) : Store * Adapter :=
  match actions with
  | [] => (σ, w)
  | build m q :: actions =>
      match call m q σ with
      | Some (σ, _) => perform driver actions σ w
      | None => perform driver actions σ w
      end
  | run q :: actions =>
      let '(σ, w, _) := execute driver q σ w in
      perform driver actions σ w
  end.

(** Every object of [σ] is still in [σ'], related to what it was by [R]. *)
Definition related (R : Query → Query → Prop) (σ σ' : Store) : Prop :=
  ∀ t T, objects σ !! t = Some T → ∃ T', objects σ' !! t = Some T' ∧ R T T'.

(** An object that was closed is closed. *)
Definition stays_closed (T T' : Query) : Prop :=
  _transactionClosed T = true → _transactionClosed T' = true.

(** An update that closes no less than before. *)
Definition never_reopens (f : Query → Query) : Prop :=
  ∀ T, stays_closed T (f T).






(** A chain [q.m1().m2()...] that is built and not executed. *)
Fixpoint build_chain (ms : list Mutator) (this : loc) (σ : Store)
  : option (Store * loc) :=
  match ms with
  | [] => Some (σ, this)
  | m :: ms => '(σ, d) ← call m this σ; build_chain ms d σ
  end.

(** The transforms the calls of a chain add. *)
Definition added (ms : list Mutator) : list TransformFn :=
  omap (λ m, match m with call_transform fn => Some fn | _ => None end) ms.

(** What the [transaction] setter does to the state of the transaction it
    binds to, by the override of its receiver. *)
Definition setter_state (o : option TransactionSQL) (s : TransactionState)
  : TransactionState :=
  match o with
  | Some commit_sql | Some rollback_sql => release_state s
  | Some begin_sql | None => s
  end.


(** [σ'] is [σ] up to updates of objects that leave their class and arrays
    alone: the arrays of strings are those of [σ]. *)
Definition same_arrays (σ σ' : Store) : Prop :=
  stringArrays σ' = stringArrays σ
  ∧ related (λ P P', arrays P' = arrays P) σ σ'.



(** * The MySQL adapter (src/lib/adapters/mysql.js) *)

Module MySQL.

(** [predicateForWeekday]: [shift], applied to the number
    [parseWeekdayToInt] gives for a weekday; [%] is the remainder of the
    division that truncates. *)
Definition shift (n : Z) : Z := Z.rem (n + 6) 7.

(** The values [Grammar#escape] is given: strings, and everything else. *)
Inductive Escapable :=
| text (s : string)
| number (n : Z)
| null.

Definition backslash : Ascii.ascii :=
  Eval vm_compute in Ascii.ascii_of_nat 92.

(** [value.replace('\\', '\\\\')]: a pattern that is a string is replaced
    where it occurs first, and nowhere else; the replacement holds no [$]. *)
Fixpoint replace_backslash (value : string) : string :=
  match value with
  | EmptyString => EmptyString
  | String a value =>
      if Ascii.eqb a backslash
      then String backslash (String backslash value)
      else String a (replace_backslash value)
  end.

(** [Grammar#escape]:
    [value = _.isString(value) ? value.replace(...) : value;
     return this._super(value)]. *)
Definition escape {A} (_super : Escapable → A) (value : Escapable) : A :=
  let value :=
    match value with
    | text s => text (replace_backslash s)
    | number _ | null => value
    end in
  _super value.

(** The character [c] occurs in [s]. *)
Fixpoint occurs (c : Ascii.ascii) (s : string) : bool :=
  match s with
  | EmptyString => false
  | String a s => Ascii.eqb a c || occurs c s
  end.

End MySQL.

(** * The command line interface
      (the module that follows the adapter in src/lib/adapters/mysql.js) *)

Module cli.

(** The Liftoff environment: [env.modulePath], [env.configPath],
    [env.cwd]. *)
Record Env := mkEnv {
  modulePath : option string;
  configPath : option string;
  cwd : string;
}.

(** [!s] for a property that is a string or absent. *)
Definition absent (s : option string) : bool :=
  match s with
  | None => true
  | Some s => bool_decide (s = "")
  end.

(** The commands [describe] sets up. *)
Inductive Command := init | migrate | rollback | generate.

(** [options.name()]: the name [describe] gives the command. *)
Definition name_of (c : Command) : string :=
  match c with
  | init => "init"
  | migrate => "migrate"
  | rollback => "rollback"
  | generate => "make-migration"
  end.

(** The [details] [run] gives [captureAction] for each command:
    [{ azulfile: false }] for [init], none for the others. *)
Definition details (c : Command) : option bool :=
  match c with
  | init => Some false
  | migrate | rollback | generate => None
  end.

(** What an action is applied to. *)
Inductive Argument :=
| config (path : string)            (* [require(env.configPath)] *)
| options (command : string)        (* the command object *)
| positional (value : option string).

(** [action], once a command has been captured. *)
Record Action := mkAction {
  action_options : Argument;
  action_name : string;
  action_args : list Argument;
  azulfile : bool;
}.

(** [captureAction(details)], called by the parser with the positional
    arguments of the command followed by the command object:
    [_.defaults(action, details, { azulfile: true })]. *)
Definition captureAction (details : option bool) (c : Command)
    (positionals : list (option string)) : Action :=
  let args := (positional <$> positionals) ++ [options (name_of c)] in
  mkAction (options (name_of c)) (name_of c) args (default true details).

(** How [run] ends. *)
Inductive Outcome :=
| help                     (* [program.help()], which exits *)
| local_azul_not_found     (* [process.exit(1)] *)
| no_azulfile_found        (* [process.exit(1)] *)
| require_throws            (* [require] of an absent path *)
| applied (name : string) (arguments : list Argument).

(** [verifyEnvironment(env, action)]: the exit it makes, if any. *)
Definition verifyEnvironment (env : Env) (action : Action)
  : option Outcome :=
  if absent (modulePath env) then Some local_azul_not_found
  else if absent (configPath env) && azulfile action
  then Some no_azulfile_found
  else None.

(** [run(env)], [parsed] being the command [program.parse] finds on the
    command line and its positional arguments, if there is one. *)
Definition run (env : Env)
    (parsed : option (Command * list (option string))) : Outcome :=
  match parsed with
  | None => help
  | Some (c, positionals) =>
      let action := captureAction (details c) c positionals in
      match verifyEnvironment env action with
      | Some exit => exit
      | None =>
          let applied_to args :=
            let args := args ++ [action_options action] in
            let args := args ++ action_args action in
            applied (action_name action) args in
          if azulfile action then
            match configPath env with
            | Some path => applied_to [config path]
            | None => require_throws
            end
          else applied_to []
      end
  end.

End cli.

(** * Proofs *)

Lemma alter_last {A} (f : A → A) (l : list A) (x : A) :
  alter f (length l) (l ++ [x]) = l ++ [f x].
Proof. by rewrite alter_app_r_alt, Nat.sub_diag by lia. Qed.

Lemma lookup_snoc_old {A} (l : list A) (x y : A) (i : nat) :
  l !! i = Some y → (l ++ [x]) !! i = Some y.
Proof. apply lookup_app_l_Some. Qed.

Lemma lookup_last {A} (l : list A) (x : A) :
  (l ++ [x]) !! length l = Some x.
Proof. by rewrite lookup_app_r, Nat.sub_diag by lia. Qed.

Lemma Transaction_take_snoc os fa sa q Q r fs :
  os !! q = Some Q →
  _transforms Q = Some r →
  fa !! r = Some fs →
  Transaction_take (length os) q
    (mkStore (os ++ [blank (__identity__ Q)]) fa sa)
  = Some (mkStore (os ++ [taken Q (length fa)]) (fa ++ [fs]) sa).
Proof.
  intros HQ Hr Hfs.
  unfold Transaction_take, Transform_take, Limit_take, BaseQuery_take.
  repeat (rewrite ?(lookup_snoc_old _ _ _ _ HQ), ?Hr, ?Hfs;
          unfold modify, new_functionArray; cbn -[alter];
          rewrite ?alter_last).
  done.
Qed.

Ltac store_step HQ :=
  repeat (rewrite ?(lookup_snoc_old _ _ _ _ HQ);
          unfold modify, new_functionArray, new_stringArray, new_object;
          cbn -[alter]; rewrite ?alter_last).

Lemma well_formed_inv σ q :
  well_formed σ q →
  ∃ Q r fs, objects σ !! q = Some Q ∧ _transforms Q = Some r
            ∧ functionArrays σ !! r = Some fs
            ∧ transforms_of q σ = Some fs
            ∧ (__identity__ Q = SelectQuery → is_Some (_tables Q))
            ∧ (∀ a, _tables Q = Some a ∨ _columns Q = Some a →
                    is_Some (stringArrays σ !! a)).
Proof.
  intros (Q & HQ & [fs Hfs] & Hsel).
  unfold transforms_of in Hfs |- *. rewrite HQ in Hfs |- *. cbn in Hfs |- *.
  destruct (_transforms Q) as [r|] eqn:Hr; [|done]. cbn in Hfs.
  exists Q, r, fs. by rewrite Hr.
Qed.

Lemma _dup_spec σ q :
  well_formed σ q →
  ∃ σ', _dup q σ = Some (σ', length (objects σ))
        ∧ duplicates σ q σ' (length (objects σ)).
Proof.
  intros (Q & r & fs & HQ & Hr & Hfs & Htr & Hsel & Hex)%well_formed_inv.
  destruct σ as [os fa sa]. cbn in *.
  unfold _dup. cbn. rewrite HQ. cbn.
  destruct (__identity__ Q) eqn:Hid; cbn.
  - rewrite <-Hid, (Transaction_take_snoc _ _ _ _ _ _ _ HQ Hr Hfs). cbn.
    eexists; split; [done|]. split; [done|].
    exists Q, (taken Q (length fa)), fs, []. cbn.
    rewrite app_nil_r, Hid. split_and!; try done.
    intros a [?|?]; done.
  - destruct Hsel as [t Ht]; [done|].
    destruct (Hex t) as [ts Hts]; [by left|].
    unfold strings_of in *. cbn in *.
    unfold SelectQuery_take.
    rewrite <-Hid, (Transaction_take_snoc _ _ _ _ _ _ _ HQ Hr Hfs). cbn.
    store_step HQ. rewrite Ht. cbn. rewrite Hts. store_step HQ.
    destruct (_columns Q) as [c|] eqn:Hc.
    + destruct (Hex c) as [cs Hcs]; [by right|].
      store_step HQ. rewrite (lookup_snoc_old _ _ _ _ Hcs). store_step HQ.
      eexists; split; [done|]. split; [done|].
      exists Q, (set_columns (Some (length (sa ++ [ts])))
                  (set_tables (Some (length sa)) (taken Q (length fa)))),
             fs, [ts; cs]. cbn.
      rewrite Hid, Ht, Hc. cbn. rewrite <-app_assoc. cbn.
      split_and!; try done.
      * intros a [[= <-]|[= <-]]; (split; [rewrite ?length_app; cbn; lia|]);
          apply lookup_lt_is_Some; rewrite !length_app; cbn; lia.
      * intros _. split.
        -- by rewrite Hts, lookup_app_r, Nat.sub_diag by lia.
        -- rewrite Hcs, length_app, lookup_app_r by (cbn; lia). cbn.
           by replace (length sa + 1 - length sa)%nat with 1%nat by lia.
    + store_step HQ.
      eexists; split; [done|]. split; [done|].
      exists Q, (set_columns None
                  (set_tables (Some (length sa)) (taken Q (length fa)))),
             fs, [ts]. cbn.
      rewrite Hid, Ht, Hc. cbn.
      split_and!; try done.
      * intros a [[= <-]|[=]]. split; [lia|]. by rewrite lookup_last.
      * intros _. by rewrite Hts, lookup_last.
Qed.

(** ** Updates of one object *)

Lemma modify_lookup o f σ p :
  objects (modify o f σ) !! p
  = if decide (o = p) then f <$> objects σ !! p else objects σ !! p.
Proof.
  unfold modify. cbn [objects]. rewrite list_lookup_alter.
  repeat case_decide; by simplify_eq.
Qed.

Lemma modify_lookup_Some o f σ p P :
  objects σ !! p = Some P →
  objects (modify o f σ) !! p = Some (if decide (o = p) then f P else P).
Proof. intros HP. rewrite modify_lookup, HP. by destruct (decide _). Qed.


Lemma keeps_configuration_arrays f : keeps_configuration f → keeps_arrays f.
Proof.
  intros Hf Q. specialize (Hf Q). unfold configuration, arrays in *.
  injection Hf; intros; congruence.
Qed.

Lemma keeps_arrays_fields f Q :
  keeps_arrays f →
  __identity__ (f Q) = __identity__ Q ∧ _transforms (f Q) = _transforms Q
  ∧ _tables (f Q) = _tables Q ∧ _columns (f Q) = _columns Q.
Proof. intros Hf. specialize (Hf Q). unfold arrays in Hf. by injection Hf. Qed.

Lemma transforms_of_modify o f σ p :
  keeps_arrays f → transforms_of p (modify o f σ) = transforms_of p σ.
Proof.
  intros Hf. unfold transforms_of. rewrite modify_lookup.
  destruct (decide (o = p)), (objects σ !! p) as [P|]; cbn; try done.
  by destruct (keeps_arrays_fields f P Hf) as (_ & -> & _).
Qed.

Lemma well_formed_modify o f σ p :
  keeps_arrays f → well_formed σ p → well_formed (modify o f σ) p.
Proof.
  intros Hf (P & HP & Htr & Hsel & Hex).
  eexists. split; [by apply modify_lookup_Some|].
  rewrite transforms_of_modify by done. split; [done|].
  destruct (keeps_arrays_fields f P Hf) as (Hi & _ & Ht & Hc).
  destruct (decide (o = p)); [|done]. by rewrite Hi, Ht, Hc.
Qed.

Lemma unaliased_modify o f σ d q :
  keeps_arrays f → unaliased σ d q → unaliased (modify o f σ) d q.
Proof.
  intros Hf (D & Q & HD & HQ & H1 & H2).
  eexists _, _.
  split; [by apply modify_lookup_Some|]. split; [by apply modify_lookup_Some|].
  destruct (keeps_arrays_fields f D Hf) as (_ & HD1 & HD2 & HD3).
  destruct (keeps_arrays_fields f Q Hf) as (_ & HQ1 & HQ2 & HQ3).
  destruct (decide (o = d)), (decide (o = q));
    rewrite ?HD1, ?HD2, ?HD3, ?HQ1, ?HQ2, ?HQ3; done.
Qed.

Lemma preserves_refl σ : preserves σ σ.
Proof. repeat split; eauto. Qed.

Lemma preserves_trans σ1 σ2 σ3 :
  preserves σ1 σ2 → preserves σ2 σ3 → preserves σ1 σ3.
Proof.
  intros (Ho & Hf & Hs) (Ho' & Hf' & Hs'). repeat split; eauto.
  intros p P (P' & HP' & Hc)%Ho. destruct (Ho' _ _ HP') as (P'' & ? & ?).
  exists P''. split; [done|congruence].
Qed.

Lemma preserves_modify o f σ :
  keeps_configuration f → preserves σ (modify o f σ).
Proof.
  intros Hf. repeat split; eauto. intros p P HP.
  eexists. split; [by apply modify_lookup_Some|].
  destruct (decide _); [apply Hf|done].
Qed.

Lemma preserves_modify_new o f σ σ' :
  objects σ !! o = None → preserves σ σ' → preserves σ (modify o f σ').
Proof.
  intros Ho (Hobj & Hf & Hs). repeat split; eauto.
  intros p P HP. destruct (Hobj _ _ HP) as (P' & HP' & Hc).
  exists P'. split; [|done]. rewrite modify_lookup.
  case_decide; by simplify_eq.
Qed.

Lemma preserves_push_new r fn σ σ' :
  functionArrays σ !! r = None → preserves σ σ' →
  preserves σ (push r fn σ').
Proof.
  intros Hr (Hobj & Hf & Hs). repeat split; eauto.
  intros r' fs Hfs. cbn. rewrite list_lookup_alter_ne; [eauto|congruence].
Qed.

Lemma duplicates_preserves σ q σ' d : duplicates σ q σ' d → preserves σ σ'.
Proof.
  intros (-> & Q & D & fs & extra & _ & Ho & _ & Hf & Hs & _).
  unfold preserves. rewrite Ho, Hf, Hs. repeat split; intros.
  - eexists. split; [by apply lookup_app_l_Some|done].
  - by apply lookup_app_l_Some.
  - by apply lookup_app_l_Some.
Qed.

Lemma configuration_fields P P' :
  configuration P' = configuration P →
  __identity__ P' = __identity__ P ∧ _tables P' = _tables P
  ∧ _columns P' = _columns P ∧ _transforms P' = _transforms P
  ∧ _transaction P' = _transaction P
  ∧ _transactionSQLOverride P' = _transactionSQLOverride P.
Proof. unfold configuration. intros H. by injection H. Qed.

Lemma preserves_bound σ σ' p t o :
  preserves σ σ' → bound σ p t o → bound σ' p t o.
Proof.
  intros (Ho & _) (P & HP & Ht & Hov).
  destruct (Ho _ _ HP) as (P' & HP' & Hc).
  apply configuration_fields in Hc as (_ & _ & _ & _ & Ht' & Hov').
  exists P'. split_and!; congruence.
Qed.

Lemma preserves_transforms_of σ σ' p fs :
  preserves σ σ' → transforms_of p σ = Some fs → transforms_of p σ' = Some fs.
Proof.
  intros (Ho & Hf & _). unfold transforms_of.
  destruct (objects σ !! p) as [P|] eqn:HP; [|done]. cbn.
  destruct (Ho _ _ HP) as (P' & -> & Hc). cbn.
  apply configuration_fields in Hc as (_ & _ & _ & -> & _).
  destruct (_transforms P) as [r|]; [|done]. cbn. apply Hf.
Qed.


Lemma preserves_unchanged σ σ' p :
  preserves σ σ' → well_formed σ p → unchanged σ σ' p.
Proof.
  intros Hp (P & HP & [fs Hfs] & Hsel & Hex).
  pose proof Hp as (Ho & _ & Hs).
  destruct (Ho _ _ HP) as (P' & HP' & Hc).
  exists P, P'. split_and!; try done.
  - rewrite Hfs. by eapply preserves_transforms_of.
  - apply configuration_fields in Hc as (_ & -> & _).
    destruct (_tables P) as [a|] eqn:Ha; [|done]. cbn.
    destruct (Hex a) as [ss Hss]; [by left|]. by rewrite Hss, (Hs _ _ Hss).
  - apply configuration_fields in Hc as (_ & _ & -> & _).
    destruct (_columns P) as [a|] eqn:Ha; [|done]. cbn.
    destruct (Hex a) as [ss Hss]; [by right|]. by rewrite Hss, (Hs _ _ Hss).
Qed.

(** ** What a duplicate is *)

Lemma duplicates_new σ q σ' d :
  duplicates σ q σ' d → objects σ !! d = None ∧ d ≠ q.
Proof.
  intros (-> & Q & _ & _ & _ & HQ & _). split.
  - by apply lookup_ge_None.
  - apply lookup_lt_Some in HQ. lia.
Qed.

Lemma duplicates_lookup σ q σ' d :
  duplicates σ q σ' d →
  ∃ Q D, objects σ !! q = Some Q ∧ objects σ' !! d = Some D
       ∧ __identity__ D = __identity__ Q
       ∧ _transforms D = Some (length (functionArrays σ))
       ∧ _transaction D = _transaction Q
       ∧ _transactionSQLOverride D = None
       ∧ transaction_state D
         = mkTransactionState undefined false false false None.
Proof.
  intros (-> & Q & D & fs & extra & HQ & Ho & _ & _ & _ & ? & _ & _ & ? & ?
          & ? & ? & _).
  exists Q, D. rewrite Ho, lookup_last. done.
Qed.

Lemma duplicates_well_formed σ q σ' d :
  well_formed σ q → duplicates σ q σ' d → well_formed σ' d.
Proof.
  intros (Q' & HQ' & _ & Hsel & Hex)
         (-> & Q & D & fs & extra & HQ & Ho & Htr & Hf & Hs & Hi & _ & _ & Hr
          & _ & _ & _ & Hnew & Hstr).
  simplify_eq. exists D. rewrite Ho, lookup_last. split; [done|]. split.
  { exists fs. unfold transforms_of. rewrite Ho, lookup_last. cbn.
    rewrite Hr. cbn. by rewrite Hf, lookup_last. }
  split; [|intros a Ha; by apply Hnew].
  rewrite Hi. intros HS. destruct (Hstr HS) as [Ht _].
  destruct (Hsel HS) as [t Hqt]. rewrite Hqt in Ht. cbn in Ht.
  destruct (Hex t) as [ts Hts]; [by left|]. rewrite Hts in Ht.
  destruct (_tables D); [done|discriminate].
Qed.

Lemma duplicates_unaliased σ q σ' d :
  well_formed σ q → duplicates σ q σ' d → unaliased σ' d q.
Proof.
  intros Hwf Hd.
  pose proof (duplicates_preserves _ _ _ _ Hd) as (Hp & _).
  destruct Hwf as (Q' & HQ' & [fs' Hfs'] & Hsel & Hex).
  destruct Hd as (-> & Q & D & fs & extra & HQ & Ho & Htr & Hf & Hs & Hi & _
                  & _ & Hr & _ & _ & _ & Hnew & Hstr).
  assert (Q' = Q) as -> by congruence. exists D, Q. rewrite Ho, lookup_last.
  split; [done|]. split; [by apply lookup_app_l_Some|]. split.
  - intros r. rewrite Hr. intros [= <-] Hqr.
    unfold transforms_of in Htr. rewrite HQ in Htr. cbn in Htr.
    rewrite Hqr in Htr. cbn in Htr. apply lookup_lt_Some in Htr. lia.
  - intros a [Hlt _]%Hnew.
    split; intros Hqa; (destruct (Hex a) as [ss Hss%lookup_lt_Some];
      [eauto|lia]).
Qed.

(** ** The transaction state under updates *)

Lemma in_state_modify σ o f g t s :
  (∀ T, transaction_state (f T) = g (transaction_state T)) →
  in_state σ t s →
  in_state (modify o f σ) t (if decide (o = t) then g s else s).
Proof.
  intros Hf (T & HT & <-). eexists. split; [by apply modify_lookup_Some|].
  by case_decide.
Qed.

Lemma in_state_modify_ne σ o f t s :
  o ≠ t → in_state σ t s → in_state (modify o f σ) t s.
Proof.
  intros Hne (T & HT & <-). exists T. split; [|done].
  rewrite modify_lookup. by case_decide.
Qed.

Lemma in_state_duplicates σ q σ' d t s :
  duplicates σ q σ' d → in_state σ t s → in_state σ' t s.
Proof.
  intros (-> & Q & D & fs & extra & _ & Ho & _) (T & HT & <-).
  exists T. split; [|done]. rewrite Ho. by apply lookup_app_l_Some.
Qed.

Lemma in_state_lt σ t s : in_state σ t s → (t < length (objects σ))%nat.
Proof. intros (T & HT%lookup_lt_Some & _). done. Qed.

Lemma transaction_state_prepare_acquire T :
  transaction_state (prepare_acquire T) = acquire_state (transaction_state T).
Proof.
  destruct T. unfold prepare_acquire, acquire_state. cbn.
  by destruct (js_not _).
Qed.

Lemma transaction_state_prepare_release T :
  transaction_state (prepare_release T) = release_state (transaction_state T).
Proof.
  destruct T as [? ? ? ? ? ? ? ? n ? ? ? ? ?].
  unfold prepare_release, release_state. cbn.
  destruct (js_is_one n) eqn:Hn; [|done].
  destruct n as [| |z]; try done. cbn in Hn. apply Z.eqb_eq in Hn as ->. done.
Qed.

Lemma keeps_configuration_prepare_acquire :
  keeps_configuration prepare_acquire.
Proof. intros T. unfold prepare_acquire. by destruct (js_not _). Qed.

Lemma keeps_configuration_prepare_release :
  keeps_configuration prepare_release.
Proof. intros T. unfold prepare_release. by destruct (js_is_one _). Qed.

(** ** The mutators *)

Lemma well_formed_push r fn σ p : well_formed σ p → well_formed (push r fn σ) p.
Proof.
  intros (P & HP & [fs Hfs] & Hrest). exists P. split; [done|].
  split; [|done]. unfold transforms_of in *. cbn. rewrite HP in Hfs |- *.
  cbn in *. destruct (_transforms P) as [r'|]; [|done]. cbn in *.
  rewrite list_lookup_alter. case_decide; subst; rewrite Hfs; by eexists.
Qed.

Lemma prepare_acquire_or this σ :
  _prepareForTransactionClientAcquire this σ = σ
  ∨ ∃ t, _prepareForTransactionClientAcquire this σ
         = modify t prepare_acquire σ.
Proof.
  unfold _prepareForTransactionClientAcquire.
  destruct (_ ≫= _); eauto.
Qed.

Lemma prepare_release_or this σ :
  _prepareForTransactionClientRelease this σ = σ
  ∨ ∃ t, _prepareForTransactionClientRelease this σ
         = modify t prepare_release σ.
Proof.
  unfold _prepareForTransactionClientRelease.
  destruct (_ ≫= _); eauto.
Qed.

Lemma configured_dup σ q σ' d :
  well_formed σ q → duplicates σ q σ' d → configured σ q σ' d.
Proof.
  intros Hwf Hd. split_and!.
  - by eapply duplicates_new.
  - destruct (duplicates_lookup _ _ _ _ Hd) as (_ & D & _ & HD & _ & Hr & _).
    by exists D.
  - by eapply duplicates_preserves.
  - by eapply duplicates_well_formed.
  - by eapply duplicates_unaliased.
Qed.

Lemma configured_modify_new σ q σ' d f :
  keeps_arrays f → configured σ q σ' d → configured σ q (modify d f σ') d.
Proof.
  intros Hf (Hd & (D & HD & Hr) & Hp & Hwf & Hun). split_and!; try done.
  - eexists. split; [by apply modify_lookup_Some|].
    destruct (keeps_arrays_fields f D Hf) as (_ & HDr & _).
    case_decide; by rewrite ?HDr.
  - by apply preserves_modify_new.
  - by apply well_formed_modify.
  - by apply unaliased_modify.
Qed.

Lemma configured_modify_state σ q σ' d t f :
  keeps_configuration f → configured σ q σ' d →
  configured σ q (modify t f σ') d.
Proof.
  intros Hf (Hd & (D & HD & Hr) & Hp & Hwf & Hun).
  pose proof (keeps_configuration_arrays _ Hf) as Hf'. split_and!; try done.
  - eexists. split; [by apply modify_lookup_Some|].
    destruct (keeps_arrays_fields f D Hf') as (_ & HDr & _).
    case_decide; by rewrite ?HDr.
  - eapply preserves_trans; [done|]. by apply preserves_modify.
  - by apply well_formed_modify.
  - by apply unaliased_modify.
Qed.

Lemma configured_push σ q σ' d fn :
  configured σ q σ' d →
  configured σ q (push (length (functionArrays σ)) fn σ') d.
Proof.
  intros (Hd & Hr & Hp & Hwf & Hun). split_and!; try done.
  - apply preserves_push_new; [|done]. by apply lookup_ge_None.
  - by apply well_formed_push.
Qed.

Lemma configured_prepare_acquire σ q σ' d this :
  configured σ q σ' d →
  configured σ q (_prepareForTransactionClientAcquire this σ') d.
Proof.
  intros Hc. destruct (prepare_acquire_or this σ') as [->|[t ->]]; [done|].
  apply configured_modify_state; [|done].
  apply keeps_configuration_prepare_acquire.
Qed.

Lemma configured_prepare_release σ q σ' d this :
  configured σ q σ' d →
  configured σ q (_prepareForTransactionClientRelease this σ') d.
Proof.
  intros Hc. destruct (prepare_release_or this σ') as [->|[t ->]]; [done|].
  apply configured_modify_state; [|done].
  apply keeps_configuration_prepare_release.
Qed.

Lemma configured_lookup σ q σ' d :
  configured σ q σ' d → is_Some (objects σ' !! d).
Proof. intros (_ & (D & -> & _) & _). by eexists. Qed.

Lemma call_spec m σ q :
  well_formed σ q →
  ∃ σ', call m q σ = Some (σ', length (objects σ))
        ∧ configured σ q σ' (length (objects σ)).
Proof.
  intros Hwf. pose proof Hwf as (Q & HQ & _).
  destruct (_dup_spec _ _ Hwf) as (σ1 & Hdup & Hd).
  pose proof (configured_dup _ _ _ _ Hwf Hd) as Hc.
  destruct m as [fn|t| | | |n|n]; cbn; unfold transform, transaction, begin,
    commit, rollback, limit, offset; rewrite ?HQ; cbn; rewrite Hdup; cbn.
  - destruct (duplicates_lookup _ _ _ _ Hd)
      as (Q' & D & _ & HD & _ & Hr & _).
    rewrite HD. cbn. rewrite Hr. cbn.
    destruct Hd as (_ & ? & ? & fs & ? & _ & _ & _ & Hf & _).
    rewrite Hf, lookup_last. cbn. eexists. split; [done|].
    by apply configured_push.
  - destruct (_transactionSQLOverride Q) as [[]|];
      (eexists; split; [done|]);
      repeat first [ apply configured_prepare_release
                   | apply configured_modify_new; [done|] ]; done.
  - set (σ2 := modify _ _ σ1).
    change (alter _ _ (objects σ1)) with (objects σ2).
    assert (configured σ q σ2 (length (objects σ))) as Hc2
      by by apply configured_modify_new.
    destruct (configured_lookup _ _ _ _ Hc2) as [D2 ->]. cbn.
    eexists. split; [done|].
    apply configured_prepare_acquire. by apply configured_modify_new.
  - eexists. split; [done|].
    apply configured_prepare_release. by apply configured_modify_new.
  - eexists. split; [done|].
    apply configured_prepare_release. by apply configured_modify_new.
  - eexists. split; [done|]. by apply configured_modify_new.
  - eexists. split; [done|]. by apply configured_modify_new.
Qed.

Lemma preserves_applyTransforms σ σ' p result :
  preserves σ σ' → well_formed σ p →
  _applyTransforms p σ' result = _applyTransforms p σ result.
Proof.
  intros Hp Hwf.
  destruct (preserves_unchanged _ _ _ Hp Hwf)
    as (P & P' & HP & HP' & Hc & Htr & _).
  unfold _applyTransforms. rewrite HP, HP', Htr. cbn.
  by apply configuration_fields in Hc as (-> & _).
Qed.

Lemma transform_spec fn σ q Q fs :
  well_formed σ q →
  objects σ !! q = Some Q →
  transforms_of q σ = Some fs →
  ∃ σ' D, transform fn q σ = Some (σ', length (objects σ))
        ∧ configured σ q σ' (length (objects σ))
        ∧ objects σ' !! length (objects σ) = Some D
        ∧ __identity__ D = __identity__ Q
        ∧ transforms_of (length (objects σ)) σ' = Some (fs ++ [fn]).
Proof.
  intros Hwf HQ Hfs.
  destruct (call_spec (call_transform fn) _ _ Hwf) as (σ' & Hcall & Hc).
  cbn in Hcall. exists σ'. rewrite Hcall.
  unfold transform in Hcall.
  destruct (_dup_spec _ _ Hwf) as (σ1 & Hdup & Hd). rewrite Hdup in Hcall.
  cbn in Hcall.
  destruct (duplicates_lookup _ _ _ _ Hd)
    as (Q' & D & HQ' & HD & Hi & Hr & _).
  assert (Q' = Q) as -> by congruence.
  rewrite HD in Hcall. cbn in Hcall. rewrite Hr in Hcall. cbn in Hcall.
  destruct Hd as (_ & ? & ? & fs' & ? & _ & _ & Hfs' & Hf & _).
  assert (fs' = fs) as -> by congruence.
  rewrite Hf, lookup_last in Hcall. cbn in Hcall.
  injection Hcall as <-. exists D. split_and!; try done.
  unfold transforms_of. cbn. rewrite HD. cbn. rewrite Hr. cbn.
  by rewrite Hf, alter_last, lookup_last.
Qed.

(** ** Execution *)

Lemma validate_bound σ q t o s :
  bound σ q t o → in_state σ t s →
  _validateBeforeTransactionExecution q σ = validation o s.
Proof.
  intros (Q & HQ & Ht & Ho) (T & HT & <-).
  unfold _validateBeforeTransactionExecution, validation.
  rewrite HQ, Ht, HT, Ho. cbn. by destruct o as [[]|].
Qed.

Lemma modify_same_lookup t f σ T :
  objects σ !! t = Some T → objects (modify t f σ) !! t = Some (f T).
Proof. intros H. rewrite (modify_lookup_Some _ _ _ _ _ H). by case_decide. Qed.








Lemma execute_invalid driver q σ w t o s e :
  bound σ q t o → in_state σ t s →
  validation o s = inl e →
  execute driver q σ w = (σ, w, inl e).
Proof.
  intros Hb Hs Hv. pose proof (validate_bound _ _ _ _ _ Hb Hs) as Hval.
  unfold execute, Transform_execute, Transaction_execute,
    _beforeTransactionExecution.
  by rewrite Hval, Hv.
Qed.

(** ** Building [begin], [commit] and [rollback] queries *)

Lemma begin_unbound σ q Q :
  well_formed σ q →
  objects σ !! q = Some Q → _transaction Q = None →
  ∃ σ', begin q σ = Some (σ', length (objects σ))
      ∧ configured σ q σ' (length (objects σ))
      ∧ bound σ' (length (objects σ)) (length (objects σ)) (Some begin_sql)
      ∧ in_state σ' (length (objects σ))
          (mkTransactionState (Num 1) true false false None).
Proof.
  intros Hwf HQ Ht.
  destruct (call_spec call_begin _ _ Hwf) as (σ' & Hcall & Hc).
  cbn in Hcall. exists σ'. split; [done|]. split; [done|].
  unfold begin in Hcall.
  destruct (_dup_spec _ _ Hwf) as (σ1 & Hdup & Hd). rewrite Hdup in Hcall.
  cbn -[modify] in Hcall.
  destruct (duplicates_lookup _ _ _ _ Hd)
    as (Q' & D & HQ' & HD & Hi & Hr & HDt & HDo & HDs).
  assert (Q' = Q) as -> by congruence.
  rewrite (modify_same_lookup _ _ _ _ HD) in Hcall. cbn -[modify] in Hcall.
  rewrite HDt, Ht in Hcall. cbn -[modify] in Hcall.
  unfold _prepareForTransactionClientAcquire in Hcall.
  rewrite (modify_same_lookup _ _ _ _ (modify_same_lookup _ _ _ _ HD))
    in Hcall.
  cbn -[modify] in Hcall. injection Hcall as <-.
  split; eexists;
    (split; [by do 3 apply modify_same_lookup|]).
  { by destruct (configuration_fields _ _
        (keeps_configuration_prepare_acquire
           (set_transaction (Some (length (objects σ)))
              (set_override (Some begin_sql) D))))
      as (_ & _ & _ & _ & -> & ->). }
  rewrite transaction_state_prepare_acquire.
  change (transaction_state (set_transaction _ (set_override _ D)))
    with (transaction_state D).
  by rewrite HDs.
Qed.

Lemma begin_bound σ q t o s :
  well_formed σ q →
  bound σ q t o → in_state σ t s →
  ∃ σ', begin q σ = Some (σ', length (objects σ))
      ∧ configured σ q σ' (length (objects σ))
      ∧ bound σ' (length (objects σ)) t (Some begin_sql)
      ∧ in_state σ' t (acquire_state s).
Proof.
  intros Hwf (Q & HQ & Ht & Ho) Hs.
  destruct (call_spec call_begin _ _ Hwf) as (σ' & Hcall & Hc).
  cbn in Hcall. exists σ'. split; [done|]. split; [done|].
  unfold begin in Hcall.
  destruct (_dup_spec _ _ Hwf) as (σ1 & Hdup & Hd). rewrite Hdup in Hcall.
  cbn -[modify] in Hcall.
  destruct (duplicates_lookup _ _ _ _ Hd)
    as (Q' & D & HQ' & HD & Hi & Hr & HDt & HDo & HDs).
  assert (Q' = Q) as -> by congruence.
  rewrite (modify_same_lookup _ _ _ _ HD) in Hcall. cbn -[modify] in Hcall.
  rewrite HDt, Ht in Hcall. cbn -[modify] in Hcall.
  unfold _prepareForTransactionClientAcquire in Hcall.
  rewrite (modify_same_lookup _ _ _ _ (modify_same_lookup _ _ _ _ HD))
    in Hcall.
  cbn -[modify] in Hcall. injection Hcall as <-.
  pose proof (in_state_lt _ _ _ Hs) as Hlt.
  pose proof (in_state_duplicates _ _ _ _ _ _ Hd Hs) as Hs1.
  split.
  - eexists. split.
    { rewrite modify_lookup. case_decide; [lia|].
      by do 2 apply modify_same_lookup. }
    done.
  - apply (in_state_modify_ne _ (length (objects σ))
             (set_override (Some begin_sql))) in Hs1; [|lia].
    apply (in_state_modify_ne _ (length (objects σ))
             (set_transaction (Some t))) in Hs1; [|lia].
    apply (in_state_modify _ t prepare_acquire acquire_state) in Hs1;
      [|apply transaction_state_prepare_acquire].
    by case_decide.
Qed.

Lemma release_bound m sql σ q t o s :
  (m = call_commit ∧ sql = commit_sql)
  ∨ (m = call_rollback ∧ sql = rollback_sql) →
  well_formed σ q →
  bound σ q t o → in_state σ t s →
  ∃ σ', call m q σ = Some (σ', length (objects σ))
      ∧ configured σ q σ' (length (objects σ))
      ∧ bound σ' (length (objects σ)) t (Some sql)
      ∧ in_state σ' t (release_state s).
Proof.
  intros Hm Hwf (Q & HQ & Ht & Ho) Hs.
  destruct (call_spec m _ _ Hwf) as (σ' & Hcall & Hc).
  exists σ'. split; [done|]. split; [done|].
  destruct (_dup_spec _ _ Hwf) as (σ1 & Hdup & Hd).
  destruct (duplicates_lookup _ _ _ _ Hd)
    as (Q' & D & HQ' & HD & Hi & Hr & HDt & HDo & HDs).
  assert (Q' = Q) as -> by congruence.
  pose proof (in_state_lt _ _ _ Hs) as Hlt.
  pose proof (in_state_duplicates _ _ _ _ _ _ Hd Hs) as Hs1.
  assert (σ' = modify t prepare_release
                 (modify (length (objects σ)) (set_override (Some sql)) σ1))
    as ->.
  { destruct Hm as [[-> ->]|[-> ->]]; cbn in Hcall;
      unfold commit, rollback in Hcall; rewrite Hdup in Hcall;
      cbn -[modify] in Hcall;
      unfold _prepareForTransactionClientRelease in Hcall;
      rewrite (modify_same_lookup _ _ _ _ HD) in Hcall;
      cbn -[modify] in Hcall; rewrite HDt, Ht in Hcall; by injection Hcall. }
  split.
  - eexists. split.
    { rewrite modify_lookup. case_decide; [lia|].
      by apply modify_same_lookup. }
    cbn. split; [congruence|done].
  - apply (in_state_modify_ne _ (length (objects σ))
             (set_override (Some sql))) in Hs1; [|lia].
    apply (in_state_modify _ t prepare_release release_state) in Hs1;
      [|apply transaction_state_prepare_release].
    by case_decide.
Qed.

(** ** Chains *)







(** C7, amended: a query that is not itself a [begin] query and is bound
    to a transaction that still needs to acquire its client fails validation
    with 'Must execute `begin` query before using transaction.'; executing
    it leaves the store and the adapter as they were, so that no statement
    reaches a connection. *)
Theorem pending_acquire_rejects_every_query_but_begin driver σ w q t o s :
  bound σ q t o → in_state σ t s →
  needsToAcquireClient s = true →
  o ≠ Some begin_sql →
  _validateBeforeTransactionExecution q σ = inl MustExecuteBegin
  ∧ execute driver q σ w = (σ, w, inl MustExecuteBegin).
Proof.
  intros Hb Hs Hacq Ho.
  assert (validation o s = inl MustExecuteBegin) as Hv.
  { unfold validation. rewrite Hacq. by destruct o as [[]|]. }
  split.
  - by rewrite (validate_bound _ _ _ _ _ Hb Hs).
  - by eapply execute_invalid.
Qed.

(** C8, amended: on a closed transaction, a query without a
    begin/commit/rollback override fails validation, with the
    'committed/resolved transaction' error once the [begin] of the
    transaction has been executed (with the 'must execute begin' error
    otherwise), and executing it changes nothing; a query that carries an
    override passes validation there, be it the statement that closed the
    transaction or any other. *)
Theorem closed_transaction_rejects_queries_without_override
    driver σ w q t o s :
  bound σ q t o → in_state σ t s →
  closed s = true →
  (o = None →
     ∃ e, _validateBeforeTransactionExecution q σ = inl e
        ∧ execute driver q σ w = (σ, w, inl e)
        ∧ e = (if needsToAcquireClient s then MustExecuteBegin
               else CommittedTransaction))
  ∧ (is_Some o → needsToAcquireClient s = false →
       _validateBeforeTransactionExecution q σ = inr true).
Proof.
  intros Hb Hs Hcl. rewrite (validate_bound _ _ _ _ _ Hb Hs). split.
  - intros ->.
    assert (validation None s
            = inl (if needsToAcquireClient s then MustExecuteBegin
                   else CommittedTransaction)) as Hv.
    { unfold validation. rewrite Hcl. by destruct (needsToAcquireClient s). }
    eexists. split_and!; [done|by eapply execute_invalid|done].
  - intros [sql ->] Hacq. unfold validation. rewrite Hacq.
    destruct sql; by rewrite ?andb_false_r.
Qed.

(** C9: building a [commit()] or [rollback()] query on a query bound to a
    transaction updates that transaction at once, no execution involved:
    its depth is decremented; when the depth was 1 its closed and
    needs-to-release flags are set, and are left alone otherwise; every
    query bound to the transaction stays bound to it and reads the new
    state, so that a plain query sharing a transaction whose [begin] has
    been executed is rejected as soon as the closing query exists. *)
Theorem building_commit_or_rollback_updates_the_shared_transaction
    m sql σ q t o s :
  (m = call_commit ∧ sql = commit_sql)
  ∨ (m = call_rollback ∧ sql = rollback_sql) →
  well_formed σ q → bound σ q t o → in_state σ t s →
  ∃ σ' d s',
    call m q σ = Some (σ', d)
    ∧ bound σ' d t (Some sql)
    ∧ in_state σ' t s'
    ∧ depth s' = js_decr (depth s)
    ∧ needsToAcquireClient s' = needsToAcquireClient s
    ∧ transactionClient s' = transactionClient s
    ∧ (depth s = Num 1 →
         closed s' = true ∧ needsToReleaseClient s' = true)
    ∧ (depth s ≠ Num 1 →
         closed s' = closed s
         ∧ needsToReleaseClient s' = needsToReleaseClient s)
    ∧ (∀ p o', bound σ p t o' → bound σ' p t o')
    ∧ (∀ p, bound σ p t None → depth s = Num 1 →
            needsToAcquireClient s = false →
            _validateBeforeTransactionExecution p σ'
            = inl CommittedTransaction).
Proof.
  intros Hm Hwf Hb Hs.
  destruct (release_bound _ _ _ _ _ _ _ Hm Hwf Hb Hs)
    as (σ' & Hcall & (_ & _ & Hp & _) & Hb' & Hs').
  exists σ', (length (objects σ)), (release_state s).
  split_and!; try done.
  - unfold release_state. destruct (js_is_one (depth s)) eqn:H1; [|done].
    destruct (depth s) as [| |z]; try done. cbn in *.
    by apply Z.eqb_eq in H1 as ->.
  - unfold release_state. by destruct (js_is_one _).
  - unfold release_state. by destruct (js_is_one _).
  - intros Hd. unfold release_state. by rewrite Hd.
  - intros Hd. unfold release_state.
    destruct (js_is_one (depth s)) eqn:H1; [|done]. destruct Hd.
    destruct (depth s) as [| |z]; try done. cbn in *.
    by apply Z.eqb_eq in H1 as ->.
  - intros p o'. by apply preserves_bound.
  - intros p Hbp Hd Hacq.
    rewrite (validate_bound _ _ _ _ _ (preserves_bound _ _ _ _ _ Hp Hbp) Hs').
    unfold validation, release_state. rewrite Hd. cbn. by rewrite Hacq.
Qed.

Lemma before_preserves q σ w σ' w' r :
  _beforeTransactionExecution q σ w = (σ', w', r) → preserves σ σ'.
Proof.
  unfold _beforeTransactionExecution.
  destruct (_validateBeforeTransactionExecution q σ) as [e|[]];
    [intros [= <- _ _]; apply preserves_refl| |
     intros [= <- _ _]; apply preserves_refl].
  destruct (objects σ !! q ≫= _transaction) as [t|];
    [|intros [= <- _ _]; apply preserves_refl].
  destruct (objects σ !! t) as [T|];
    [|intros [= <- _ _]; apply preserves_refl].
  destruct (_transactionNeedsToAcquireClient T);
    [|intros [= <- _ _]; apply preserves_refl].
  cbn. intros [= <- _ _].
  repeat (eapply preserves_trans; [|by apply preserves_modify]).
  apply preserves_refl.
Qed.

Lemma after_preserves q σ w σ' w' r :
  _afterTransactionExecution q σ w = (σ', w', r) → preserves σ σ'.
Proof.
  unfold _afterTransactionExecution.
  destruct (objects σ !! q ≫= _transaction) as [t|];
    [|intros [= <- _ _]; apply preserves_refl].
  destruct (objects σ !! t) as [T|];
    [|intros [= <- _ _]; apply preserves_refl].
  destruct (_transactionNeedsToReleaseClient T);
    [|intros [= <- _ _]; apply preserves_refl].
  intros [= <- _ _].
  repeat (eapply preserves_trans; [|by apply preserves_modify]).
  apply preserves_refl.
Qed.

Lemma Transaction_execute_preserves driver q σ w σ' w' r :
  Transaction_execute driver q σ w = (σ', w', r) → preserves σ σ'.
Proof.
  unfold Transaction_execute.
  destruct (_beforeTransactionExecution q σ w) as [[σ1 w1] [e|[]]] eqn:Hb;
    apply before_preserves in Hb; [by intros [= <- _ _]|].
  unfold BaseQuery_execute.
  destruct (_statement q σ1) as [e|stmt]; [by intros [= <- _ _]|].
  destruct (driver stmt) as [rows|]; [|by intros [= <- _ _]].
  destruct (_afterTransactionExecution q σ1 _) as [[σ2 w2] [e|[]]] eqn:Ha;
    apply after_preserves in Ha; intros [= <- _ _];
    by eapply preserves_trans.
Qed.

Lemma transform_all_spec fns σ q Q fs :
  well_formed σ q →
  objects σ !! q = Some Q →
  transforms_of q σ = Some fs →
  ∃ σ' d D,
    transform_all fns q σ = Some (σ', d)
    ∧ preserves σ σ'
    ∧ well_formed σ' d
    ∧ objects σ' !! d = Some D
    ∧ __identity__ D = __identity__ Q
    ∧ transforms_of d σ' = Some (fs ++ fns).
Proof.
  revert σ q Q fs. induction fns as [|fn fns IH]; intros σ q Q fs Hwf HQ Hfs.
  - exists σ, q, Q. rewrite app_nil_r. split_and!; try done.
    apply preserves_refl.
  - destruct (transform_spec fn _ _ _ _ Hwf HQ Hfs)
      as (σ1 & D1 & Htr & (_ & _ & Hp1 & Hwf1 & _) & HD1 & Hi1 & Hfs1).
    destruct (IH _ _ _ _ Hwf1 HD1 Hfs1)
      as (σ' & d & D & Hall & Hp & Hwf' & HD & Hi & Hfs').
    exists σ', d, D. cbn. rewrite Htr. cbn. rewrite <-app_assoc in Hfs'.
    split_and!; try done; [by eapply preserves_trans|congruence].
Qed.

(** C10: after [q.transform(f1)...transform(fn)] the transforms of the
    last query are those of [q] followed by [f1 ... fn] in that order;
    applying them is a left fold from the result of the query, each function
    receiving the output of the one before and the class of the query;
    execution returns that fold of the rows; the transforms of [q] and of
    every other query of the store are what they were. *)
Theorem transforms_apply_in_the_order_added fns σ q Q fs :
  well_formed σ q →
  objects σ !! q = Some Q →
  transforms_of q σ = Some fs →
  ∃ σ' d,
    transform_all fns q σ = Some (σ', d)
    ∧ transforms_of d σ' = Some (fs ++ fns)
    ∧ (∀ result,
         _applyTransforms d σ' result
         = Some (fold_left (λ transformed fn, fn transformed (__identity__ Q))
                           (fs ++ fns) result))
    ∧ (∀ driver w σ'' w'' rows,
         Transaction_execute driver d σ' w = (σ'', w'', inr rows) →
         Transform_execute driver d σ' w
         = (σ'', w'',
            inr (fold_left (λ transformed fn, fn transformed (__identity__ Q))
                           (fs ++ fns) rows)))
    ∧ (∀ p, well_formed σ p →
            transforms_of p σ' = transforms_of p σ
            ∧ ∀ result,
                _applyTransforms p σ' result = _applyTransforms p σ result).
Proof.
  intros Hwf HQ Hfs.
  destruct (transform_all_spec fns _ _ _ _ Hwf HQ Hfs)
    as (σ' & d & D & Hall & Hp & Hwf' & HD & Hi & Hfs').
  assert (∀ result,
            _applyTransforms d σ' result
            = Some (fold_left
                      (λ transformed fn, fn transformed (__identity__ Q))
                      (fs ++ fns) result)) as Happly.
  { intros result. unfold _applyTransforms. rewrite HD, Hfs'. cbn.
    by rewrite Hi. }
  exists σ', d. split_and!; try done.
  - intros driver w σ'' w'' rows Hex. unfold Transform_execute.
    rewrite Hex.
    rewrite (preserves_applyTransforms _ _ _ rows
               (Transaction_execute_preserves _ _ _ _ _ _ _ Hex) Hwf').
    by rewrite Happly.
  - intros p Hwfp. split.
    + by destruct (preserves_unchanged _ _ _ Hp Hwfp)
        as (? & ? & _ & _ & _ & ? & _).
    + intros result. by apply preserves_applyTransforms.
Qed.

(** * Join aliases *)








Example employee_manager :
  resolve self_join_schema [join_clause ["manager"]; where_clause ["id"]]
    (unjoined Employee)
  = inr (mkJoined Employee
           [mkJoinSpec ["manager"] "employees" "manager" to_one] false).
Proof. reflexivity. Qed.

Example employee_manager_of_manager :
  resolve self_join_schema
    [where_clause ["manager"; "name"]; where_clause ["manager"; "manager"]]
    (unjoined Employee)
  = inr (mkJoined Employee
           [mkJoinSpec ["manager"] "employees" "manager" to_one;
            mkJoinSpec ["manager"; "manager"] "employees" "manager_j1"
                       to_one]
           true).
Proof. reflexivity. Qed.

Example node_nodes_joined_then_referenced :
  resolve self_join_schema
    [join_clause ["nodes"]; where_clause ["nodes"; "pk"]] (unjoined Node)
  = inr (mkJoined Node [mkJoinSpec ["nodes"] "nodes" "nodes_j1" to_many]
                  false).
Proof. reflexivity. Qed.

Example node_nodes_across_joins :
  resolve self_join_schema [where_clause ["nodes"; "nodes"; "nodes"; "pk"]]
    (unjoined Node)
  = inr (mkJoined Node
           [mkJoinSpec ["nodes"] "nodes" "nodes_j1" to_many;
            mkJoinSpec ["nodes"; "nodes"] "nodes" "nodes_j2" to_many;
            mkJoinSpec ["nodes"; "nodes"; "nodes"] "nodes" "nodes_j3"
                       to_many]
           true).
Proof. reflexivity. Qed.

Example user_articles_comments :
  resolve blog_schema
    [where_clause ["articles"; "comments"; "body"];
     order_clause ["username"];
     order_clause ["articles"; "comments"; "body"]]
    (unjoined User)
  = inr (mkJoined User
           [mkJoinSpec ["articles"] "articles" "articles" to_many;
            mkJoinSpec ["articles"; "comments"] "comments" "comments"
                       to_many]
           true).
Proof. reflexivity. Qed.


(** * Implicit grouping *)

Lemma join_prefix_inv path r target j j' made :
  join_prefix path r target j = Some (j', made) →
  primary j' = primary j ∧ grouped j' = grouped j
  ∧ (made = false → j' = j)
  ∧ (made = true → length (joins j') = S (length (joins j))).
Proof.
  unfold join_prefix. destruct (find_join path j).
  - by intros [= <- <-].
  - destruct (unique_alias _ _); [|done]. cbn. intros [= <- <-]. cbn.
    split_and!; try done. intros _. rewrite length_app. cbn. lia.
Qed.

Lemma walk_inv schema attribute segments :
  ∀ host prefix j j' made,
    walk schema attribute host prefix segments j = inr (j', made) →
    primary j' = primary j ∧ grouped j' = grouped j
    ∧ (made = true → relation_path schema host segments ≠ [])
    ∧ (made = false → joins j' = joins j)
    ∧ (made = true → (length (joins j) < length (joins j'))%nat)
    ∧ (length (joins j) ≤ length (joins j'))%nat.
Proof.
  induction segments as [|segment rest IH]; intros host prefix j j' made.
  - cbn. intros [= <- <-]. split_and!; try done.
  - cbn. destruct (find_relation host segment) as [r|].
    + destruct (find_entity schema (relation_target r)) as [target|]; [|done].
      destruct (join_prefix _ r target j) as [[j1 m1]|] eqn:H1; [|done].
      destruct (walk schema attribute target _ rest j1) as [e|[j2 m2]] eqn:H2;
        [done|].
      intros [= <- <-].
      apply join_prefix_inv in H1 as (Hp1 & Hg1 & Hsame & Hmore).
      apply IH in H2 as (Hp2 & Hg2 & _ & Hjoins & Hlt & Hle).
      assert (length (joins j) ≤ length (joins j1))%nat as Hle1.
      { destruct m1; [rewrite Hmore by done; lia|by rewrite Hsame]. }
      split_and!; [congruence|congruence|done| | |lia].
      * intros [-> ->]%orb_false_iff. rewrite Hjoins, Hsame; done.
      * intros [->| ->]%orb_true_iff.
        -- rewrite Hmore in Hle by done. lia.
        -- specialize (Hlt eq_refl). lia.
    + destruct (attribute && bool_decide (rest = [])); [|done].
      intros [= <- <-]. split_and!; try done.
Qed.

Lemma join_inv schema path j j' :
  join schema path j = inr j' →
  primary j' = primary j ∧ grouped j' = grouped j.
Proof.
  unfold join.
  destruct (walk schema false (primary j) [] path j) as [e|[j1 made]] eqn:H;
    [done|].
  intros [= <-]. by apply walk_inv in H as (? & ? & _).
Qed.

Lemma reference_inv schema field j j' :
  reference schema field j = inr j' →
  primary j' = primary j
  ∧ (grouped j' = grouped j
     ∨ grouped j' = true ∧ relation_path schema (primary j) field ≠ [])
  ∧ (joins j' ≠ joins j → grouped j' = true)
  ∧ (joins j' = joins j → grouped j' = grouped j).
Proof.
  unfold reference.
  destruct (walk schema true (primary j) [] field j) as [e|[j1 made]] eqn:H;
    [done|].
  intros [= <-]. cbn.
  apply walk_inv in H as (Hp & Hg & Hpath & Hjoins & Hlt & _).
  rewrite Hg. destruct made.
  - rewrite orb_true_r. split_and!; [done| |done|].
    + right. split; [done|by apply Hpath].
    + intros Heq. specialize (Hlt eq_refl). rewrite Heq in Hlt. lia.
  - rewrite orb_false_r. split_and!; [done|by left| |done].
    intros []. by apply Hjoins.
Qed.

(** C4, amended: a chain of [join()] calls alone leaves the grouping as
    it was; a query ends up grouped by its primary key only when it already
    was or when a condition or an ordering references a relation path, of
    whatever kind; a reference that makes the resolver add a join groups
    the query, one whose path is joined already leaves the grouping as it
    was. *)
Theorem grouping_comes_from_referenced_relation_paths schema cs j j' :
  resolve schema cs j = inr j' →
  (Forall (λ c, ∃ path, c = join_clause path) cs → grouped j' = grouped j)
  ∧ (grouped j' = true →
     grouped j = true
     ∨ ∃ field, (where_clause field ∈ cs ∨ order_clause field ∈ cs)
              ∧ relation_path schema (primary j) field ≠ [])
  ∧ (∀ field j0 j1,
       reference schema field j0 = inr j1 →
       (joins j1 ≠ joins j0 → grouped j1 = true)
       ∧ (joins j1 = joins j0 → grouped j1 = grouped j0)).
Proof.
  intros Hres. split_and!.
  - revert j Hres. induction cs as [|c cs IH]; intros j Hres Hall.
    + cbn in Hres. by injection Hres as <-.
    + apply Forall_cons in Hall as [[path ->] Hall]. cbn in Hres.
      destruct (join schema path j) as [e|j1] eqn:H1; [done|].
      apply join_inv in H1 as [_ <-]. by apply IH.
  - revert j Hres. induction cs as [|c cs IH]; intros j Hres Hg.
    + cbn in Hres. injection Hres as <-. by left.
    + cbn in Hres.
      destruct (resolve_clause schema c j) as [e|j1] eqn:H1; [done|].
      destruct (IH _ Hres Hg) as [Hg1|(field & Hin & Hpath)].
      * destruct c as [path|field|field]; cbn in H1.
        -- apply join_inv in H1 as [_ <-]. by left.
        -- apply reference_inv in H1 as (_ & [<-|[_ Hpath]] & _ & _);
             [by left|].
           right. exists field. split; [left; apply elem_of_cons; by left|done].
        -- apply reference_inv in H1 as (_ & [<-|[_ Hpath]] & _ & _);
             [by left|].
           right. exists field.
           split; [right; apply elem_of_cons; by left|done].
      * right. exists field.
        assert (primary j1 = primary j) as <-.
        { destruct c; cbn in H1;
            [by apply join_inv in H1 as [? _]
            |by apply reference_inv in H1 as [? _]..]. }
        split; [|done].
        destruct Hin; [left|right]; apply elem_of_cons; by right.
  - intros field j0 j1 Href.
    by apply reference_inv in Href as (_ & _ & ? & ?).
Qed.

Example employee_where_manager :
  resolve self_join_schema [where_clause ["manager"; "id"]]
    (unjoined Employee)
  = inr (mkJoined Employee
           [mkJoinSpec ["manager"] "employees" "manager" to_one] true).
Proof. reflexivity. Qed.

Example employee_where_subordinates :
  resolve self_join_schema [where_clause ["subordinates"; "id"]]
    (unjoined Employee)
  = inr (mkJoined Employee
           [mkJoinSpec ["subordinates"] "employees" "subordinates" to_many]
           true).
Proof. reflexivity. Qed.

Example employee_join_subordinates :
  resolve self_join_schema
    [join_clause ["subordinates"]; where_clause ["id"]] (unjoined Employee)
  = inr (mkJoined Employee
           [mkJoinSpec ["subordinates"] "employees" "subordinates" to_many]
           false).
Proof. reflexivity. Qed.

(** C4 as claimed fails: [Employee.objects.where({ 'manager.id': 1 })]
    is grouped by the primary key although the only relation path it
    references, [manager], is to-one. *)
Lemma to_one_reference_groups :
  (∃ j, resolve self_join_schema [where_clause ["manager"; "id"]]
          (unjoined Employee) = inr j
        ∧ grouped j = true)
  ∧ relation_path self_join_schema Employee ["manager"; "id"]
    = [mkRelation "manager" to_one "employee"].
Proof. split; [eexists; split; reflexivity|reflexivity]. Qed.

(** * Saving pending relation changes *)

Lemma execute_statements_accepted storage stmts :
  Forall (λ stmt, storage stmt = true) stmts →
  execute_statements storage stmts = (true, stmts).
Proof.
  induction 1 as [|stmt stmts Hstmt _ IH]; [done|].
  cbn. by rewrite Hstmt, IH.
Qed.

Lemma execute_statements_rejected storage stmts :
  Exists (λ stmt, storage stmt = false) stmts →
  (execute_statements storage stmts).1 = false.
Proof.
  induction 1 as [stmt stmts Hstmt|stmt stmts _ IH]; cbn.
  - by rewrite Hstmt.
  - destruct (storage stmt); [|done].
    by destruct (execute_statements storage stmts).
Qed.

(** C5: a save whose flush is accepted by storage resets the in-flight
    relation change to empty (no clear, nothing to add, nothing to remove),
    and a flush of the empty change issues nothing; a save whose flush fails
    on some statement leaves the in-flight change as it was, so that a retry
    storage accepts issues the same statements and then resets it. *)
Theorem save_resets_or_keeps_the_in_flight_change storage owner i :
  (Forall (λ stmt, storage stmt = true) (flush owner i) →
     save storage owner i = mkSaved true no_changes (flush owner i))
  ∧ (Exists (λ stmt, storage stmt = false) (flush owner i) →
     succeeded (save storage owner i) = false
     ∧ in_flight (save storage owner i) = i
     ∧ ∀ retry,
         Forall (λ stmt, retry stmt = true) (flush owner i) →
         save retry owner (in_flight (save storage owner i))
         = mkSaved true no_changes (flush owner i))
  ∧ flush owner no_changes = [].
Proof.
  split_and!.
  - intros Hall. unfold save.
    by rewrite (execute_statements_accepted _ _ Hall).
  - intros Hex. apply execute_statements_rejected in Hex.
    assert (in_flight (save storage owner i) = i) as Hkept.
    { unfold save. destruct (execute_statements storage (flush owner i))
        as [ok done_]. cbn in *. by subst. }
    split_and!.
    + unfold save. destruct (execute_statements storage (flush owner i))
        as [ok done_]. cbn in *. by subst.
    + done.
    + intros retry Hall. rewrite Hkept. unfold save.
      by rewrite (execute_statements_accepted _ _ Hall).
  - done.
Qed.

Example complex_sequence :
  flush 1
    (add_object 2
      (remove_objects [6]
        (add_object 2
          (remove_objects [2; 5; 1; 4]
            (add_objects [6; 7]
              (add_object 1
                (clear_objects
                  (add_objects [4]
                    (remove_object 1
                      (add_objects [1; 2; 3; 7] no_changes))))))))))
  = [ClearRelated 1; AddRelated 1 [7; 2]; RemoveRelated [5; 4]].
Proof. reflexivity. Qed.

Example failed_then_retried :
  let failed := save (λ _, false) 395 (add_object 828 no_changes) in
  let retried := save (λ _, true) 395 (in_flight failed) in
  in_flight failed = mkInFlight false [828] []
  ∧ executed failed = []
  ∧ in_flight retried = mkInFlight false [] []
  ∧ executed retried = [AddRelated 395 [828]].
Proof. by split_and!. Qed.

(** * The collection cache *)

(** C6: the collection of a relation that is not loaded answers with the
    'not yet loaded' error, also after a related instance has been
    associated, and on every instance read from storage; once the collection
    has been fetched, or eagerly loaded for a set of owners, it answers with
    the related rows of the owner in result order, which is the empty
    sequence for an owner no row points to. *)
Theorem collection_access_needs_a_loaded_cache relation :
  (∀ o, cached relation o = None →
        collection relation o = inl (NotYetLoaded relation))
  ∧ (∀ o r, cached relation o = None →
            collection relation (associate relation r o)
            = inl (NotYetLoaded relation))
  ∧ (∀ id, collection relation (fresh id) = inl (NotYetLoaded relation))
  ∧ (∀ rows o,
       collection relation (fetch_collection relation rows o)
       = inr (related_to o rows))
  ∧ (∀ rows owners,
       map (collection relation) (eager_load relation rows owners)
       = map (λ o, inr (related_to o rows)) owners)
  ∧ (∀ rows o,
       Forall (λ r, row_owner r ≠ Some (instance_id o)) rows →
       collection relation (fetch_collection relation rows o) = inr []).
Proof.
  assert (∀ rows o,
            collection relation (fetch_collection relation rows o)
            = inr (related_to o rows)) as Hfetch.
  { intros rows o. unfold collection, cached, fetch_collection. cbn.
    by rewrite lookup_insert_eq. }
  split_and!.
  - intros o Ho. unfold collection. by rewrite Ho.
  - intros o r Ho. unfold associate, collection. by rewrite Ho, Ho.
  - done.
  - done.
  - intros rows owners. unfold eager_load. rewrite map_map.
    apply map_ext. intros o. apply Hfetch.
  - intros rows o Hnone. rewrite Hfetch. f_equal. unfold related_to.
    induction Hnone as [|r rows Hr _ IH]; [done|].
    rewrite filter_cons. by case_decide.
Qed.

Example owners_without_rows :
  map (collection "articles")
    (eager_load "articles"
       [mkRow 3 (Some 1); mkRow 5 (Some 1); mkRow 6 (Some 4)]
       [fresh 1; fresh 2; fresh 3; fresh 4])
  = [inr [mkRow 3 (Some 1); mkRow 5 (Some 1)]; inr []; inr [];
     inr [mkRow 6 (Some 4)]].
Proof. reflexivity. Qed.

Example stored_via_belongsTo :
  collection "articles"
    (associate "articles" (mkRow 828 (Some 395)) (fresh 395))
  = inl (NotYetLoaded "articles").
Proof. reflexivity. Qed.

Example created_owner :
  collection "articles"
    (associate "articles" (mkRow 828 None) (create 1 ["articles"]))
  = inr [mkRow 828 None].
Proof. reflexivity. Qed.

(** * The statements at concrete inputs *)

Lemma entry_store_well_formed : well_formed entry_store 0.
Proof.
  eexists. split_and!; [reflexivity|by eexists|discriminate|].
  intros a [H|H]; discriminate H.
Defined.

Lemma select_store_well_formed : well_formed select_store 0.
Proof.
  eexists. split_and!; [reflexivity|by eexists|by eexists|].
  intros a [[= <-]|[= <-]]; by eexists.
Defined.

(** C7 as claimed fails: the [begin] query itself is bound to the
    transaction that still needs to acquire its client, passes validation,
    acquires the client and sends its statement. *)
Lemma begin_query_passes_on_a_pending_transaction :
  begin 0 entry_store = Some (pending_store, 1%nat)
  ∧ bound pending_store 1 1 (Some begin_sql)
  ∧ in_state pending_store 1
      (mkTransactionState (Num 1) true false false None)
  ∧ _validateBeforeTransactionExecution 1 pending_store = inr true
  ∧ (execute one_row 1 pending_store idle_adapter).1.2
    = mkAdapter 1
        [Acquire 0; Execute (Some 0%nat) (TransactionStatement begin_sql)].
Proof.
  split_and!; try reflexivity.
  - eexists. split_and!; reflexivity.
  - eexists. split; reflexivity.
Qed.

(** C8 as claimed fails: a second [commit()] built on a transaction that
    the first one closed is not the statement that closed it, yet it passes
    validation and its statement is sent. *)
Lemma second_commit_passes_on_a_closed_transaction :
  run_chain one_row [call_begin; call_commit] 0 entry_store idle_adapter
  = Some (committed, 2%nat)
  ∧ in_state committed.1 1
      (mkTransactionState (Num 0) false false true None)
  ∧ commit 2 committed.1 = Some (committed_twice, 3%nat)
  ∧ bound committed_twice 3 1 (Some commit_sql)
  ∧ in_state committed_twice 1
      (mkTransactionState (Num (-1)) false false true None)
  ∧ _validateBeforeTransactionExecution 3 committed_twice = inr true
  ∧ events (execute one_row 3 committed_twice committed.2).1.2
    = events committed.2
      ++ [Execute None (TransactionStatement commit_sql)].
Proof.
  split_and!; try reflexivity.
  - eexists. split; reflexivity.
  - eexists. split_and!; reflexivity.
  - eexists. split; reflexivity.
Qed.


(** C7 at a plain query chained from a transaction whose [begin] has not
    been executed. *)
Lemma pending_acquire_witness :
  (bound pending_query_store 2 1 None
   ∧ in_state pending_query_store 1
       (mkTransactionState (Num 1) true false false None)
   ∧ needsToAcquireClient
       (mkTransactionState (Num 1) true false false None) = true
   ∧ @None TransactionSQL ≠ Some begin_sql)
  ∧ _validateBeforeTransactionExecution 2 pending_query_store
    = inl MustExecuteBegin
  ∧ execute one_row 2 pending_query_store idle_adapter
    = (pending_query_store, idle_adapter, inl MustExecuteBegin).
Proof.
  assert (bound pending_query_store 2 1 None) as Hb
    by (eexists; split_and!; reflexivity).
  assert (in_state pending_query_store 1
            (mkTransactionState (Num 1) true false false None)) as Hs
    by (eexists; split; reflexivity).
  assert (@None TransactionSQL ≠ Some begin_sql) as Ho by discriminate.
  split; [by split_and!|].
  exact (pending_acquire_rejects_every_query_but_begin one_row
           pending_query_store idle_adapter 2 1 None
           (mkTransactionState (Num 1) true false false None)
           Hb Hs eq_refl Ho).
Defined.

(** C8 at a plain query chained from a committed transaction. *)
Lemma closed_transaction_witness :
  (bound closed_query_store 3 1 None
   ∧ in_state closed_query_store 1
       (mkTransactionState (Num 0) false false true None)
   ∧ closed (mkTransactionState (Num 0) false false true None) = true)
  ∧ (@None TransactionSQL = None →
       ∃ e, _validateBeforeTransactionExecution 3 closed_query_store = inl e
          ∧ execute one_row 3 closed_query_store committed.2
            = (closed_query_store, committed.2, inl e)
          ∧ e = CommittedTransaction)
  ∧ (is_Some (@None TransactionSQL) → false = false →
       _validateBeforeTransactionExecution 3 closed_query_store = inr true).
Proof.
  assert (bound closed_query_store 3 1 None) as Hb
    by (eexists; split_and!; reflexivity).
  assert (in_state closed_query_store 1
            (mkTransactionState (Num 0) false false true None)) as Hs
    by (eexists; split; reflexivity).
  split; [by split_and!|].
  exact (closed_transaction_rejects_queries_without_override one_row
           closed_query_store committed.2 3 1 None
           (mkTransactionState (Num 0) false false true None)
           Hb Hs eq_refl).
Defined.

(** C9 at [commit()] on a transaction of depth 1 whose [begin] has been
    executed. *)
Lemma building_commit_witness :
  ((call_commit = call_commit ∧ commit_sql = commit_sql
    ∨ call_commit = call_rollback ∧ commit_sql = rollback_sql)
   ∧ well_formed begun.1 1
   ∧ bound begun.1 1 1 (Some begin_sql)
   ∧ in_state begun.1 1
       (mkTransactionState (Num 1) false false false (Some 0%nat)))
  ∧ ∃ σ' d s',
      call call_commit 1 begun.1 = Some (σ', d)
      ∧ bound σ' d 1 (Some commit_sql)
      ∧ in_state σ' 1 s'
      ∧ depth s' = js_decr (Num 1)
      ∧ needsToAcquireClient s' = false
      ∧ transactionClient s' = Some 0%nat
      ∧ (Num 1 = Num 1 →
           closed s' = true ∧ needsToReleaseClient s' = true)
      ∧ (Num 1 ≠ Num 1 →
           closed s' = false ∧ needsToReleaseClient s' = false)
      ∧ (∀ p o', bound begun.1 p 1 o' → bound σ' p 1 o')
      ∧ (∀ p, bound begun.1 p 1 None → Num 1 = Num 1 → false = false →
              _validateBeforeTransactionExecution p σ'
              = inl CommittedTransaction).
Proof.
  assert (well_formed begun.1 1) as Hwf.
  { eexists. split_and!; [reflexivity|by eexists|discriminate|].
    intros a [H|H]; discriminate H. }
  assert (bound begun.1 1 1 (Some begin_sql)) as Hb
    by (eexists; split_and!; reflexivity).
  assert (in_state begun.1 1
            (mkTransactionState (Num 1) false false false (Some 0%nat)))
    as Hs by (eexists; split; reflexivity).
  split; [split_and!; try done; by left|].
  exact (building_commit_or_rollback_updates_the_shared_transaction
           call_commit commit_sql begun.1 1 1 (Some begin_sql)
           (mkTransactionState (Num 1) false false false (Some 0%nat))
           (or_introl (conj eq_refl eq_refl)) Hwf Hb Hs).
Defined.

(** C10 at [query.transform(first_row).transform(count_rows)]. *)
Lemma transforms_witness :
  (well_formed entry_store 0
   ∧ entry_store.(objects) !! 0%nat
     = Some (set_transforms (Some 0%nat) (blank EntryQuery))
   ∧ transforms_of 0 entry_store = Some [])
  ∧ ∃ σ' d,
      transform_all [first_row; count_rows] 0 entry_store = Some (σ', d)
      ∧ transforms_of d σ' = Some ([] ++ [first_row; count_rows])
      ∧ (∀ result,
           _applyTransforms d σ' result
           = Some (fold_left (λ transformed fn, fn transformed EntryQuery)
                             ([] ++ [first_row; count_rows]) result))
      ∧ (∀ driver w σ'' w'' rows,
           Transaction_execute driver d σ' w = (σ'', w'', inr rows) →
           Transform_execute driver d σ' w
           = (σ'', w'',
              inr (fold_left (λ transformed fn, fn transformed EntryQuery)
                             ([] ++ [first_row; count_rows]) rows)))
      ∧ (∀ p, well_formed entry_store p →
              transforms_of p σ' = transforms_of p entry_store
              ∧ ∀ result,
                  _applyTransforms p σ' result
                  = _applyTransforms p entry_store result).
Proof.
  split; [split_and!; [exact entry_store_well_formed|reflexivity..]|].
  exact (transforms_apply_in_the_order_added [first_row; count_rows]
           entry_store 0 (set_transforms (Some 0%nat) (blank EntryQuery)) []
           entry_store_well_formed eq_refl eq_refl).
Defined.

(** C4 at [Employee.objects.where({ 'manager.id': 1 })]. *)
Lemma grouping_witness :
  resolve self_join_schema [where_clause ["manager"; "id"]]
    (unjoined Employee)
  = inr (mkJoined Employee
           [mkJoinSpec ["manager"] "employees" "manager" to_one] true)
  ∧ (Forall (λ c, ∃ path, c = join_clause path)
            [where_clause ["manager"; "id"]] →
     true = grouped (unjoined Employee))
  ∧ (true = true →
     grouped (unjoined Employee) = true
     ∨ ∃ field,
         (where_clause field ∈ [where_clause ["manager"; "id"]]
          ∨ order_clause field ∈ [where_clause ["manager"; "id"]])
         ∧ relation_path self_join_schema Employee field ≠ [])
  ∧ (∀ field j0 j1,
       reference self_join_schema field j0 = inr j1 →
       (joins j1 ≠ joins j0 → grouped j1 = true)
       ∧ (joins j1 = joins j0 → grouped j1 = grouped j0)).
Proof.
  split; [reflexivity|].
  exact (grouping_comes_from_referenced_relation_paths self_join_schema
           [where_clause ["manager"; "id"]] (unjoined Employee)
           (mkJoined Employee
              [mkJoinSpec ["manager"] "employees" "manager" to_one] true)
           eq_refl).
Defined.

(** * Programs, chains and the adapters: proofs *)

(** ** A closed transaction stays closed *)

Lemma related_refl R σ : (∀ T, R T T) → related R σ σ.
Proof. intros HR t T HT. eauto. Qed.

Lemma related_trans R σ1 σ2 σ3 :
  (∀ T1 T2 T3, R T1 T2 → R T2 T3 → R T1 T3) →
  related R σ1 σ2 → related R σ2 σ3 → related R σ1 σ3.
Proof.
  intros HR H12 H23 t T1 HT1.
  destruct (H12 _ _ HT1) as (T2 & HT2 & HR12).
  destruct (H23 _ _ HT2) as (T3 & HT3 & HR23). eauto.
Qed.

Lemma related_modify R o f σ :
  (∀ T, R T T) → (∀ T, R T (f T)) → related R σ (modify o f σ).
Proof.
  intros Hrefl Hf t T HT. eexists. split; [by apply modify_lookup_Some|].
  by case_decide.
Qed.

Lemma related_grows R σ σ' extra :
  (∀ T, R T T) → objects σ' = objects σ ++ extra → related R σ σ'.
Proof.
  intros Hrefl Ho t T HT. exists T. split; [|done].
  rewrite Ho. by apply lookup_app_l_Some.
Qed.

Lemma stays_closed_refl T : stays_closed T T.
Proof. by intros ?. Qed.

Lemma stays_closed_trans T1 T2 T3 :
  stays_closed T1 T2 → stays_closed T2 T3 → stays_closed T1 T3.
Proof. unfold stays_closed. auto. Qed.

Lemma never_reopens_prepare_acquire : never_reopens prepare_acquire.
Proof. intros T. unfold stays_closed, prepare_acquire. by destruct (js_not _). Qed.

Lemma never_reopens_prepare_release : never_reopens prepare_release.
Proof.
  intros T. unfold stays_closed, prepare_release. by destruct (js_is_one _).
Qed.

Lemma closed_modify o f σ σ' :
  never_reopens f → related stays_closed σ σ' →
  related stays_closed σ (modify o f σ').
Proof.
  intros Hf H. eapply related_trans; [apply stays_closed_trans|done|].
  apply related_modify; [apply stays_closed_refl|done].
Qed.

Lemma closed_objects σ σ1 σ' :
  objects σ' = objects σ1 → related stays_closed σ σ1 →
  related stays_closed σ σ'.
Proof.
  intros Ho H t T HT. destruct (H _ _ HT) as (T' & HT' & HR).
  exists T'. by rewrite Ho.
Qed.

Lemma closed_alter σ σ1 σ' o f :
  never_reopens f →
  objects σ' = alter f o (objects σ1) →
  related stays_closed σ σ1 →
  related stays_closed σ σ'.
Proof.
  intros Hf Ho H.
  apply (closed_objects σ (modify o f σ1) σ'); [exact Ho|].
  by apply closed_modify.
Qed.

Lemma closed_grows σ σ1 σ' extra :
  objects σ' = objects σ1 ++ extra →
  related stays_closed σ σ1 →
  related stays_closed σ σ'.
Proof.
  intros Ho H. eapply related_trans; [apply stays_closed_trans|done|].
  eapply related_grows; [apply stays_closed_refl|done].
Qed.

Ltac never_reopens_solve :=
  first
    [ apply never_reopens_prepare_acquire
    | apply never_reopens_prepare_release
    | intros ? Hc; exact Hc ].

(** Peel the updates off the store on the right. *)
Ltac closed_peel :=
  repeat
    lazymatch goal with
    | |- related stays_closed ?σ ?X =>
        let os := eval cbn in (objects X) in
        lazymatch os with
        | alter ?f ?o ?L =>
            apply (closed_alter σ (mkStore L [] []) X o f);
            [never_reopens_solve|reflexivity|]
        | ?L ++ ?extra =>
            apply (closed_grows σ (mkStore L [] []) X extra); [reflexivity|]
        end
    end;
  try (eapply closed_objects; [|apply related_refl, stays_closed_refl];
       reflexivity).

Lemma Transaction_take_closed this orig σ σ' :
  Transaction_take this orig σ = Some σ' → related stays_closed σ σ'.
Proof.
  unfold Transaction_take, Transform_take, Limit_take, BaseQuery_take.
  intros H. simplify_option_eq. closed_peel.
Qed.

Lemma _take_closed id this orig σ σ' :
  _take id this orig σ = Some σ' → related stays_closed σ σ'.
Proof.
  destruct id; cbn; [apply Transaction_take_closed|].
  unfold SelectQuery_take. intros H.
  destruct (Transaction_take this orig σ) as [σ1|] eqn:H1; [|done].
  apply Transaction_take_closed in H1. cbn in H.
  eapply related_trans; [apply stays_closed_trans|exact H1|].
  clear H1. simplify_option_eq.
  destruct (_columns _); simplify_option_eq; closed_peel.
Qed.

Lemma _dup_closed q σ σ' d :
  _dup q σ = Some (σ', d) → related stays_closed σ σ'.
Proof.
  unfold _dup. intros H.
  destruct (objects σ !! q) as [Q|]; [|done]. cbn in H.
  destruct (_take _ _ _ _) as [σ1|] eqn:H1; [|done].
  injection H as <- _. apply _take_closed in H1.
  eapply related_trans; [apply stays_closed_trans| |exact H1].
  closed_peel.
Qed.

Lemma closed_trans σ1 σ2 σ3 :
  related stays_closed σ1 σ2 → related stays_closed σ2 σ3 →
  related stays_closed σ1 σ3.
Proof. apply related_trans, stays_closed_trans. Qed.

Lemma prepare_acquire_closed this σ σ' :
  related stays_closed σ σ' →
  related stays_closed σ (_prepareForTransactionClientAcquire this σ').
Proof.
  intros H. destruct (prepare_acquire_or this σ') as [->|[t ->]]; [done|].
  apply closed_modify; [apply never_reopens_prepare_acquire|done].
Qed.

Lemma prepare_release_closed this σ σ' :
  related stays_closed σ σ' →
  related stays_closed σ (_prepareForTransactionClientRelease this σ').
Proof.
  intros H. destruct (prepare_release_or this σ') as [->|[t ->]]; [done|].
  apply closed_modify; [apply never_reopens_prepare_release|done].
Qed.

Lemma call_closed m q σ σ' d :
  call m q σ = Some (σ', d) → related stays_closed σ σ'.
Proof.
  destruct m as [fn|t| | | |n|n]; cbn;
    unfold transform, transaction, begin, commit, rollback, limit, offset;
    intros H.
  - destruct (_dup q σ) as [[σ1 d1]|] eqn:Hdup; [|done].
    apply _dup_closed in Hdup. simplify_option_eq.
    eapply closed_objects; [|exact Hdup]. done.
  - destruct (objects σ !! q) as [Q|]; [|done]. cbn in H.
    destruct (_dup q σ) as [[σ1 d1]|] eqn:Hdup; [|done].
    apply _dup_closed in Hdup. cbn in H.
    destruct (_transactionSQLOverride Q) as [[]|]; injection H as <- _;
      repeat first [ apply prepare_release_closed
                   | apply closed_modify; [never_reopens_solve|] ]; done.
  - destruct (_dup q σ) as [[σ1 d1]|] eqn:Hdup; [|done].
    apply _dup_closed in Hdup. cbn -[modify] in H.
    destruct (objects (modify d1 _ σ1) !! d1) as [D|]; [|done].
    injection H as <- _. apply prepare_acquire_closed.
    repeat (apply closed_modify; [never_reopens_solve|]). done.
  - destruct (_dup q σ) as [[σ1 d1]|] eqn:Hdup; [|done].
    apply _dup_closed in Hdup. injection H as <- _.
    apply prepare_release_closed.
    repeat (apply closed_modify; [never_reopens_solve|]). done.
  - destruct (_dup q σ) as [[σ1 d1]|] eqn:Hdup; [|done].
    apply _dup_closed in Hdup. injection H as <- _.
    apply prepare_release_closed.
    repeat (apply closed_modify; [never_reopens_solve|]). done.
  - destruct (_dup q σ) as [[σ1 d1]|] eqn:Hdup; [|done].
    apply _dup_closed in Hdup. injection H as <- _.
    repeat (apply closed_modify; [never_reopens_solve|]). done.
  - destruct (_dup q σ) as [[σ1 d1]|] eqn:Hdup; [|done].
    apply _dup_closed in Hdup. injection H as <- _.
    repeat (apply closed_modify; [never_reopens_solve|]). done.
Qed.

Lemma before_closed q σ w σ' w' r :
  _beforeTransactionExecution q σ w = (σ', w', r) →
  related stays_closed σ σ'.
Proof.
  unfold _beforeTransactionExecution. intros H.
  repeat case_match; simplify_eq;
    repeat (apply closed_modify; [never_reopens_solve|]);
    apply related_refl, stays_closed_refl.
Qed.

Lemma after_closed q σ w σ' w' r :
  _afterTransactionExecution q σ w = (σ', w', r) →
  related stays_closed σ σ'.
Proof.
  unfold _afterTransactionExecution. intros H.
  repeat case_match; simplify_eq;
    repeat (apply closed_modify; [never_reopens_solve|]);
    apply related_refl, stays_closed_refl.
Qed.

Lemma execute_closed driver q σ w σ' w' r :
  execute driver q σ w = (σ', w', r) → related stays_closed σ σ'.
Proof.
  unfold execute, Transform_execute, Transaction_execute, BaseQuery_execute.
  intros H.
  destruct (_beforeTransactionExecution q σ w) as [[σ1 w1] r1] eqn:Hb.
  apply before_closed in Hb.
  destruct r1 as [e|[]]; [by simplify_eq|].
  destruct (_statement q σ1) as [e|stmt]; [by simplify_eq|].
  destruct (driver stmt) as [rows|]; [|by simplify_eq].
  destruct (_afterTransactionExecution q σ1 _) as [[σ2 w2] r2] eqn:Ha.
  apply after_closed in Ha.
  assert (σ' = σ2) as ->.
  { destruct r2 as [e|[]]; [by simplify_eq|].
    destruct (_applyTransforms q σ2 rows); by simplify_eq. }
  by eapply closed_trans.
Qed.

Lemma perform_closed driver actions σ w :
  related stays_closed σ (perform driver actions σ w).1.
Proof.
  revert σ w. induction actions as [|[m q|q] actions IH]; intros σ w; cbn.
  - apply related_refl, stays_closed_refl.
  - destruct (call m q σ) as [[σ1 d]|] eqn:Hcall; [|apply IH].
    apply call_closed in Hcall. by eapply closed_trans.
  - destruct (execute driver q σ w) as [[σ1 w1] r] eqn:Hex.
    apply execute_closed in Hex. by eapply closed_trans.
Qed.

(** X2: whatever is built and executed afterwards, a closed transaction
    stays closed, and a query without override that is bound to it fails
    validation. *)
Theorem closed_transaction_is_never_reopened driver actions σ w t s :
  in_state σ t s → closed s = true →
  ∃ s', in_state (perform driver actions σ w).1 t s'
      ∧ closed s' = true
      ∧ ∀ q, bound (perform driver actions σ w).1 q t None →
             ∃ e, _validateBeforeTransactionExecution q
                    (perform driver actions σ w).1 = inl e.
Proof.
  intros (T & HT & <-) Hcl.
  destruct (perform_closed driver actions σ w _ _ HT) as (T' & HT' & Hst).
  specialize (Hst Hcl).
  exists (transaction_state T'). split_and!; [by exists T'|done|].
  intros q Hb.
  rewrite (validate_bound _ _ _ _ _ Hb (ex_intro _ T' (conj HT' eq_refl))).
  unfold validation. cbn. rewrite Hst.
  destruct (_transactionNeedsToAcquireClient T'); by eexists.
Qed.

(** ** Statements that need a transaction *)

(** X1: [commit()] or [rollback()] on a query that is bound to no
    transaction builds a query and touches no other object; executing
    that query is rejected with 'Must associate ... with a transaction.',
    store and adapter being left as they were. *)
Theorem terminal_statement_needs_a_transaction m sql σ q Q :
  (m = call_commit ∧ sql = commit_sql)
  ∨ (m = call_rollback ∧ sql = rollback_sql) →
  well_formed σ q →
  objects σ !! q = Some Q → _transaction Q = None →
  ∃ σ' d,
    call m q σ = Some (σ', d)
    ∧ (∀ t T, objects σ !! t = Some T → objects σ' !! t = Some T)
    ∧ _validateBeforeTransactionExecution d σ' = inl (MustAssociate sql)
    ∧ ∀ driver w, execute driver d σ' w = (σ', w, inl (MustAssociate sql)).
Proof.
  intros Hm Hwf HQ Ht.
  destruct (_dup_spec _ _ Hwf) as (σ1 & Hdup & Hd).
  destruct (duplicates_lookup _ _ _ _ Hd)
    as (Q' & D & HQ' & HD & Hi & Hr & HDt & HDo & HDs).
  assert (Q' = Q) as -> by congruence.
  exists (modify (length (objects σ)) (set_override (Some sql)) σ1),
         (length (objects σ)).
  assert (_validateBeforeTransactionExecution (length (objects σ))
            (modify (length (objects σ)) (set_override (Some sql)) σ1)
          = inl (MustAssociate sql)) as Hval.
  { unfold _validateBeforeTransactionExecution.
    rewrite (modify_same_lookup _ _ _ _ HD). cbn. rewrite HDt, Ht.
    by destruct Hm as [[_ ->]|[_ ->]]. }
  split_and!.
  - destruct Hm as [[-> ->]|[-> ->]]; cbn; unfold commit, rollback;
      rewrite Hdup; cbn -[modify];
      unfold _prepareForTransactionClientRelease;
      rewrite (modify_same_lookup _ _ _ _ HD); cbn -[modify];
      by rewrite HDt, Ht.
  - intros t T HT. rewrite modify_lookup.
    pose proof (lookup_lt_Some _ _ _ HT). case_decide; [lia|].
    destruct Hd as (_ & ? & ? & ? & ? & _ & -> & _).
    by apply lookup_app_l_Some.
  - done.
  - intros driver w.
    unfold execute, Transform_execute, Transaction_execute,
      _beforeTransactionExecution. by rewrite Hval.
Qed.

(** ** Executing inside and outside a transaction *)




(** ** The transaction setter *)

Lemma duplicates_frame σ q σ' d t T :
  duplicates σ q σ' d → objects σ !! t = Some T → objects σ' !! t = Some T.
Proof.
  intros (_ & ? & ? & ? & ? & _ & -> & _) HT. by apply lookup_app_l_Some.
Qed.

Lemma modify_new_frame σ σ' d f t T :
  objects σ !! t = Some T → (length (objects σ) ≤ d)%nat →
  objects σ' !! t = Some T → objects (modify d f σ') !! t = Some T.
Proof.
  intros HT Hd HT'. rewrite modify_lookup.
  pose proof (lookup_lt_Some _ _ _ HT). case_decide; [lia|done].
Qed.

Lemma transaction_bound σ q Q t s :
  well_formed σ q → objects σ !! q = Some Q → in_state σ t s →
  ∃ σ', transaction t q σ = Some (σ', length (objects σ))
      ∧ configured σ q σ' (length (objects σ))
      ∧ bound σ' (length (objects σ)) t (_transactionSQLOverride Q)
      ∧ in_state σ' t (setter_state (_transactionSQLOverride Q) s)
      ∧ ∀ p P, p ≠ t → objects σ !! p = Some P → objects σ' !! p = Some P.
Proof.
  intros Hwf HQ Hs.
  destruct (call_spec (call_transaction t) _ _ Hwf) as (σ' & Hcall & Hc).
  cbn in Hcall. exists σ'. split; [done|]. split; [done|].
  destruct (_dup_spec _ _ Hwf) as (σ1 & Hdup & Hd).
  destruct (duplicates_lookup _ _ _ _ Hd)
    as (Q' & D & HQ' & HD & Hi & Hr & HDt & HDo & HDs).
  assert (Q' = Q) as -> by congruence.
  pose proof (in_state_lt _ _ _ Hs) as Hlt.
  pose proof (in_state_duplicates _ _ _ _ _ _ Hd Hs) as Hs1.
  unfold transaction in Hcall. rewrite HQ in Hcall. cbn -[modify] in Hcall.
  rewrite Hdup in Hcall. cbn -[modify] in Hcall.
  apply (in_state_modify_ne _ (length (objects σ))
           (set_transaction (Some t))) in Hs1; [|lia].
  pose proof (modify_same_lookup _ (set_transaction (Some t)) _ _ HD) as HD1.
  destruct (_transactionSQLOverride Q) as [[]|] eqn:Ho;
    cbn -[modify] in Hcall.
  - injection Hcall as <-. split_and!.
    + eexists. split; [by apply modify_same_lookup|done].
    + by apply in_state_modify_ne; [lia|].
    + intros p P Hp HP. apply (modify_new_frame σ); [done|lia|].
      apply (modify_new_frame σ); [done|lia|]. by eapply duplicates_frame.
  - unfold _prepareForTransactionClientRelease in Hcall.
    rewrite (modify_same_lookup _ _ _ _ HD1) in Hcall.
    cbn -[modify] in Hcall. injection Hcall as <-. split_and!.
    + eexists. split.
      { rewrite modify_lookup. case_decide; [lia|].
        by apply modify_same_lookup. }
      done.
    + apply (in_state_modify_ne _ (length (objects σ))
               (set_override (Some commit_sql))) in Hs1; [|lia].
      apply (in_state_modify _ t prepare_release release_state) in Hs1;
        [|apply transaction_state_prepare_release].
      by case_decide.
    + intros p P Hp HP. rewrite modify_lookup. case_decide; [done|].
      apply (modify_new_frame σ); [done|lia|].
      apply (modify_new_frame σ); [done|lia|]. by eapply duplicates_frame.
  - unfold _prepareForTransactionClientRelease in Hcall.
    rewrite (modify_same_lookup _ _ _ _ HD1) in Hcall.
    cbn -[modify] in Hcall. injection Hcall as <-. split_and!.
    + eexists. split.
      { rewrite modify_lookup. case_decide; [lia|].
        by apply modify_same_lookup. }
      done.
    + apply (in_state_modify_ne _ (length (objects σ))
               (set_override (Some rollback_sql))) in Hs1; [|lia].
      apply (in_state_modify _ t prepare_release release_state) in Hs1;
        [|apply transaction_state_prepare_release].
      by case_decide.
    + intros p P Hp HP. rewrite modify_lookup. case_decide; [done|].
      apply (modify_new_frame σ); [done|lia|].
      apply (modify_new_frame σ); [done|lia|]. by eapply duplicates_frame.
  - injection Hcall as <-. split_and!.
    + eexists. split; [done|]. cbn. split; [done|]. by rewrite HDo.
    + done.
    + intros p P Hp HP. apply (modify_new_frame σ); [done|lia|].
      by eapply duplicates_frame.
Qed.

(** X5: the [transaction] setter returns a query bound to the transaction
    given, with the override of its receiver; it counts a [commit] or a
    [rollback] of the receiver against that transaction, as building one on
    it does, and does not count a [begin]; every other object of the store,
    the transaction the receiver was bound to among them, is left as it
    was. *)
Theorem the_transaction_setter_counts_a_release_and_not_a_begin
    σ q Q t s :
  well_formed σ q → objects σ !! q = Some Q → in_state σ t s →
  ∃ σ' d,
    transaction t q σ = Some (σ', d)
    ∧ objects σ !! d = None
    ∧ bound σ' d t (_transactionSQLOverride Q)
    ∧ in_state σ' t
        (match _transactionSQLOverride Q with
         | Some commit_sql | Some rollback_sql => release_state s
         | Some begin_sql | None => s
         end)
    ∧ ∀ p P, p ≠ t → objects σ !! p = Some P → objects σ' !! p = Some P.
Proof.
  intros Hwf HQ Hs.
  destruct (transaction_bound _ _ _ _ _ Hwf HQ Hs)
    as (σ' & Hcall & (Hnew & _) & Hb & Hs' & Hframe).
  by exists σ', (length (objects σ)).
Qed.

Lemma release_unbound m sql σ q Q :
  (m = call_commit ∧ sql = commit_sql)
  ∨ (m = call_rollback ∧ sql = rollback_sql) →
  well_formed σ q →
  objects σ !! q = Some Q → _transaction Q = None →
  ∃ σ' D,
    call m q σ = Some (σ', length (objects σ))
    ∧ configured σ q σ' (length (objects σ))
    ∧ objects σ' !! length (objects σ) = Some D
    ∧ _transaction D = None
    ∧ _transactionSQLOverride D = Some sql
    ∧ ∀ t T, objects σ !! t = Some T → objects σ' !! t = Some T.
Proof.
  intros Hm Hwf HQ Ht.
  destruct (call_spec m _ _ Hwf) as (σ' & Hcall & Hc).
  destruct (_dup_spec _ _ Hwf) as (σ1 & Hdup & Hd).
  destruct (duplicates_lookup _ _ _ _ Hd)
    as (Q' & D & HQ' & HD & Hi & Hr & HDt & HDo & HDs).
  assert (Q' = Q) as -> by congruence.
  assert (σ' = modify (length (objects σ)) (set_override (Some sql)) σ1)
    as ->.
  { destruct Hm as [[-> ->]|[-> ->]]; cbn in Hcall;
      unfold commit, rollback in Hcall; rewrite Hdup in Hcall;
      cbn -[modify] in Hcall;
      unfold _prepareForTransactionClientRelease in Hcall;
      rewrite (modify_same_lookup _ _ _ _ HD) in Hcall;
      cbn -[modify] in Hcall; rewrite HDt, Ht in Hcall; by injection Hcall. }
  eexists _, _. split; [done|]. split; [done|].
  split; [by apply modify_same_lookup|]. cbn. split; [congruence|].
  split; [done|]. intros t T HT.
  apply (modify_new_frame σ); [done|lia|]. by eapply duplicates_frame.
Qed.

Lemma in_state_frame σ σ' t s :
  (∀ p P, objects σ !! p = Some P → objects σ' !! p = Some P) →
  in_state σ t s → in_state σ' t s.
Proof. intros H (T & HT & Hs). exists T. split; [by apply H|done]. Qed.

(** X6: on a query that is bound to no transaction and carries no
    override, [commit()] (or [rollback()]) and the [transaction] setter
    commute: whichever is called first, the query built is a commit (a
    rollback) bound to the transaction, and the transaction has been
    released one level. *)
Theorem release_commutes_with_the_transaction_setter m sql σ q Q t s :
  (m = call_commit ∧ sql = commit_sql)
  ∨ (m = call_rollback ∧ sql = rollback_sql) →
  well_formed σ q → objects σ !! q = Some Q →
  _transaction Q = None → _transactionSQLOverride Q = None →
  in_state σ t s →
  ∃ σ1 d1 σ2 d2,
    build_chain [m; call_transaction t] q σ = Some (σ1, d1)
    ∧ build_chain [call_transaction t; m] q σ = Some (σ2, d2)
    ∧ bound σ1 d1 t (Some sql) ∧ in_state σ1 t (release_state s)
    ∧ bound σ2 d2 t (Some sql) ∧ in_state σ2 t (release_state s).
Proof.
  intros Hm Hwf HQ Ht Ho Hs.
  destruct (release_unbound _ _ _ _ _ Hm Hwf HQ Ht)
    as (σa & Da & Hcalla & (_ & _ & _ & Hwfa & _) & HDa & HDat & HDao
        & Hframea).
  pose proof (in_state_frame _ _ _ _ Hframea Hs) as Hsa.
  destruct (transaction_bound _ _ _ _ _ Hwfa HDa Hsa)
    as (σ1 & Hcall1 & _ & Hb1 & Hs1 & _).
  destruct (transaction_bound _ _ _ _ _ Hwf HQ Hs)
    as (σb & Hcallb & (_ & _ & _ & Hwfb & _) & Hbb & Hsb & _).
  rewrite Ho in Hbb, Hsb. cbn in Hsb.
  destruct (release_bound _ _ _ _ _ _ _ Hm Hwfb Hbb Hsb)
    as (σ2 & Hcall2 & _ & Hb2 & Hs2).
  rewrite HDao in Hb1, Hs1.
  exists σ1, (length (objects σa)), σ2, (length (objects σb)).
  split_and!; try done.
  - cbn -[call]. rewrite Hcalla. cbn. by rewrite Hcall1.
  - cbn -[call]. cbn in Hcallb. cbn [call]. rewrite Hcallb. cbn -[call].
    by rewrite Hcall2.
  - by destruct Hm as [[_ ->]|[_ ->]].
Qed.

Lemma begin_unbound_frame σ q Q :
  well_formed σ q →
  objects σ !! q = Some Q → _transaction Q = None →
  ∃ σ' D, begin q σ = Some (σ', length (objects σ))
      ∧ well_formed σ' (length (objects σ))
      ∧ objects σ' !! length (objects σ) = Some D
      ∧ _transactionSQLOverride D = Some begin_sql
      ∧ ∀ t T, objects σ !! t = Some T → objects σ' !! t = Some T.
Proof.
  intros Hwf HQ Ht.
  destruct (begin_unbound _ _ _ Hwf HQ Ht)
    as (σ' & Hbegin & (_ & _ & _ & Hwf' & _) & (D & HD & _ & HDo) & _).
  exists σ', D. split_and!; try done.
  unfold begin in Hbegin.
  destruct (_dup_spec _ _ Hwf) as (σ1 & Hdup & Hd). rewrite Hdup in Hbegin.
  cbn -[modify] in Hbegin.
  destruct (duplicates_lookup _ _ _ _ Hd)
    as (Q' & D1 & HQ' & HD1 & Hi & Hr & HDt & _).
  assert (Q' = Q) as -> by congruence.
  rewrite (modify_same_lookup _ _ _ _ HD1) in Hbegin.
  cbn -[modify] in Hbegin.
  rewrite HDt, Ht in Hbegin. cbn -[modify] in Hbegin.
  unfold _prepareForTransactionClientAcquire in Hbegin.
  rewrite (modify_same_lookup _ _ _ _ (modify_same_lookup _ _ _ _ HD1))
    in Hbegin.
  cbn -[modify] in Hbegin. injection Hbegin as <-.
  intros t T HT. do 3 (apply (modify_new_frame σ); [done|lia|]).
  by eapply duplicates_frame.
Qed.

Lemma acquire_state_ne s : acquire_state s ≠ s.
Proof.
  destruct s as [[| |z] a r c cl]; unfold acquire_state; cbn; try done.
  destruct (Z.eqb_spec z 0); [subst; done|]. intros [=]. lia.
Qed.

(** X7: [begin()] and the [transaction] setter do not commute.  On a query
    that is bound to no transaction and carries no override, both orders
    build a begin query bound to the transaction given; called after the
    setter, [begin()] counts one more level on that transaction; called
    before it, [begin()] counts on a transaction of its own, and the one
    given is left in the state it was in. *)
Theorem begin_before_the_transaction_setter_is_not_counted σ q Q t s :
  well_formed σ q → objects σ !! q = Some Q →
  _transaction Q = None → _transactionSQLOverride Q = None →
  in_state σ t s →
  ∃ σ1 d1 σ2 d2,
    build_chain [call_begin; call_transaction t] q σ = Some (σ1, d1)
    ∧ build_chain [call_transaction t; call_begin] q σ = Some (σ2, d2)
    ∧ bound σ1 d1 t (Some begin_sql) ∧ in_state σ1 t s
    ∧ bound σ2 d2 t (Some begin_sql) ∧ in_state σ2 t (acquire_state s)
    ∧ acquire_state s ≠ s.
Proof.
  intros Hwf HQ Ht Ho Hs.
  destruct (begin_unbound_frame _ _ _ Hwf HQ Ht)
    as (σa & Da & Hcalla & Hwfa & HDa & HDao & Hframea).
  pose proof (in_state_frame _ _ _ _ Hframea Hs) as Hsa.
  destruct (transaction_bound _ _ _ _ _ Hwfa HDa Hsa)
    as (σ1 & Hcall1 & _ & Hb1 & Hs1 & _).
  destruct (transaction_bound _ _ _ _ _ Hwf HQ Hs)
    as (σb & Hcallb & (_ & _ & _ & Hwfb & _) & Hbb & Hsb & _).
  rewrite Ho in Hbb, Hsb. cbn in Hsb.
  destruct (begin_bound _ _ _ _ _ Hwfb Hbb Hsb)
    as (σ2 & Hcall2 & _ & Hb2 & Hs2).
  rewrite HDao in Hb1, Hs1.
  exists σ1, (length (objects σa)), σ2, (length (objects σb)).
  split_and!; try done.
  - cbn -[call]. cbn [call]. rewrite Hcalla. cbn. by rewrite Hcall1.
  - cbn -[call]. cbn [call]. rewrite Hcallb. cbn. by rewrite Hcall2.
  - apply acquire_state_ne.
Qed.

(** ** Nested transactions of any depth *)






(** ** What every mutator carries over *)

Lemma same_arrays_refl σ : same_arrays σ σ.
Proof. split; [done|]. by apply related_refl. Qed.

Lemma same_arrays_modify o f σ σ' :
  keeps_arrays f → same_arrays σ σ' → same_arrays σ (modify o f σ').
Proof.
  intros Hf [Hs Hr]. split; [done|].
  eapply related_trans; [|exact Hr|].
  - intros ??? H1 H2. by rewrite H2.
  - apply related_modify; [done|]. intros T. apply Hf.
Qed.

Lemma same_arrays_prepare_acquire this σ σ' :
  same_arrays σ σ' →
  same_arrays σ (_prepareForTransactionClientAcquire this σ').
Proof.
  intros H. destruct (prepare_acquire_or this σ') as [->|[t ->]]; [done|].
  apply same_arrays_modify; [|done]. apply keeps_configuration_arrays.
  apply keeps_configuration_prepare_acquire.
Qed.

Lemma same_arrays_prepare_release this σ σ' :
  same_arrays σ σ' →
  same_arrays σ (_prepareForTransactionClientRelease this σ').
Proof.
  intros H. destruct (prepare_release_or this σ') as [->|[t ->]]; [done|].
  apply same_arrays_modify; [|done]. apply keeps_configuration_arrays.
  apply keeps_configuration_prepare_release.
Qed.

Lemma same_arrays_push r fn σ σ' :
  same_arrays σ σ' → same_arrays σ (push r fn σ').
Proof. by intros [Hs Hr]. Qed.

Lemma functionArrays_prepare_acquire this σ :
  functionArrays (_prepareForTransactionClientAcquire this σ)
  = functionArrays σ.
Proof. by destruct (prepare_acquire_or this σ) as [->|[t ->]]. Qed.

Lemma functionArrays_prepare_release this σ :
  functionArrays (_prepareForTransactionClientRelease this σ)
  = functionArrays σ.
Proof. by destruct (prepare_release_or this σ) as [->|[t ->]]. Qed.

(** Every mutator is [_dup] followed by updates that leave the class and
    the arrays of every object alone, and by the one [push] of
    [transform]. *)
Lemma call_dup m σ q :
  well_formed σ q →
  ∃ σ1 σ', _dup q σ = Some (σ1, length (objects σ))
    ∧ duplicates σ q σ1 (length (objects σ))
    ∧ call m q σ = Some (σ', length (objects σ))
    ∧ same_arrays σ1 σ'
    ∧ functionArrays σ'
      = functionArrays σ
        ++ [default [] (transforms_of q σ) ++ added [m]].
Proof.
  intros Hwf. pose proof Hwf as (Q & HQ & _).
  destruct (_dup_spec _ _ Hwf) as (σ1 & Hdup & Hd).
  pose proof Hd as (_ & Q' & D' & fs & extra & HQ' & Hobj & Hfs & Hfa & _).
  rewrite Hfs. cbn [default].
  exists σ1.
  destruct m as [fn|t| | | |n|n]; cbn [call added omap];
    unfold transform, transaction, begin, commit, rollback, limit, offset;
    rewrite ?HQ; cbn -[modify push]; rewrite Hdup; cbn -[modify push].
  - destruct (duplicates_lookup _ _ _ _ Hd)
      as (Q'' & D & _ & HD & _ & Hr & _).
    rewrite HD. cbn -[modify push]. rewrite Hr. cbn -[modify push].
    rewrite Hfa, lookup_last. cbn -[modify push].
    eexists. split_and!; try done.
    + apply same_arrays_push, same_arrays_refl.
    + cbn. by rewrite Hfa, alter_last.
  - destruct (_transactionSQLOverride Q) as [[]|];
      (eexists; split_and!; [done|done|done| |]);
      rewrite ?app_nil_r, ?functionArrays_prepare_release;
      first [ exact Hfa
            | repeat first [ apply same_arrays_prepare_release
                           | apply same_arrays_modify; [done|]
                           | apply same_arrays_refl ] ].
  - set (σ2 := modify _ _ σ1).
    assert (is_Some (objects σ2 !! length (objects σ))) as [D2 HD2].
    { destruct (duplicates_lookup _ _ _ _ Hd) as (_ & D & _ & HD & _).
      eexists. by apply modify_same_lookup. }
    rewrite HD2. cbn -[modify].
    eexists. split_and!; try done.
    + apply same_arrays_prepare_acquire.
      do 2 (apply same_arrays_modify; [done|]). apply same_arrays_refl.
    + by rewrite app_nil_r, functionArrays_prepare_acquire.
  - eexists. split_and!; try done.
    + apply same_arrays_prepare_release.
      apply same_arrays_modify; [done|]. apply same_arrays_refl.
    + by rewrite app_nil_r, functionArrays_prepare_release.
  - eexists. split_and!; try done.
    + apply same_arrays_prepare_release.
      apply same_arrays_modify; [done|]. apply same_arrays_refl.
    + by rewrite app_nil_r, functionArrays_prepare_release.
  - eexists. split_and!; try done.
    + apply same_arrays_modify; [done|]. apply same_arrays_refl.
    + by rewrite app_nil_r.
  - eexists. split_and!; try done.
    + apply same_arrays_modify; [done|]. apply same_arrays_refl.
    + by rewrite app_nil_r.
Qed.

Lemma call_carries m σ q Q fs :
  well_formed σ q → objects σ !! q = Some Q →
  transforms_of q σ = Some fs →
  ∃ σ' D,
    call m q σ = Some (σ', length (objects σ))
    ∧ configured σ q σ' (length (objects σ))
    ∧ objects σ' !! length (objects σ) = Some D
    ∧ __identity__ D = __identity__ Q
    ∧ transforms_of (length (objects σ)) σ' = Some (fs ++ added [m])
    ∧ (__identity__ Q = SelectQuery →
         strings_of (_tables D) σ' = strings_of (_tables Q) σ
         ∧ strings_of (_columns D) σ' = strings_of (_columns Q) σ).
Proof.
  intros Hwf HQ Hfs.
  destruct (call_dup m _ _ Hwf) as (σ1 & σ' & Hdup & Hd & Hcall & [Hsa Hr] & Hfa).
  destruct (call_spec m _ _ Hwf) as (σ'' & Hcall' & Hc).
  assert (σ'' = σ') as -> by congruence.
  destruct (duplicates_lookup _ _ _ _ Hd)
    as (Q' & D1 & HQ' & HD1 & Hi & Htr & _).
  assert (Q' = Q) as -> by congruence.
  destruct (Hr _ _ HD1) as (D & HD & Harr).
  unfold arrays in Harr. injection Harr as Hid Htrs Htab Hcol.
  exists σ', D. split_and!; try done.
  - congruence.
  - unfold transforms_of. rewrite HD. cbn. rewrite Htrs, Htr. cbn.
    rewrite Hfa, Hfs. cbn. by rewrite lookup_last.
  - intros Hsel.
    destruct Hd as (_ & Q2 & D2 & ? & ? & HQ2 & Hobj & _ & _ & _ & _ & _ & _
                    & _ & _ & _ & _ & _ & Hstr).
    assert (Q2 = Q) as -> by congruence.
    assert (D2 = D1) as ->.
    { rewrite Hobj, lookup_last in HD1. congruence. }
    destruct (Hstr Hsel) as [Ht Hc'].
    unfold strings_of in *. rewrite Htab, Hcol, Hsa. done.
Qed.

(** C2: every immutable mutator ([transform], the [transaction] setter,
    [begin], [commit], [rollback], and the clause mutators [limit] and
    [offset]) returns a new object, distinct from the receiver; the
    receiver and every other query of the store keep their class, tables,
    columns, clauses, transforms, binding and override, and their arrays
    keep their contents; the object returned is of the class of the
    receiver and holds copies of its arrays: its transforms are those of
    the receiver, followed by the function added if the mutator is
    [transform], and the tables and columns of a select query hold what
    those of the receiver hold; these arrays are the duplicate's own, so
    that a push onto its transforms leaves the receiver as it was. *)
Theorem mutators_return_a_new_object_and_leave_the_receiver_unchanged
    m σ q :
  well_formed σ q →
  ∃ σ' d,
    call m q σ = Some (σ', d)
    ∧ d ≠ q
    ∧ objects σ !! d = None
    ∧ is_Some (objects σ' !! d)
    ∧ (∀ p, well_formed σ p → unchanged σ σ' p)
    ∧ unaliased σ' d q
    ∧ (∀ D r fn, objects σ' !! d = Some D → _transforms D = Some r →
                 unchanged σ (push r fn σ') q)
    ∧ ∃ Q D fs,
        objects σ !! q = Some Q
        ∧ objects σ' !! d = Some D
        ∧ __identity__ D = __identity__ Q
        ∧ transforms_of q σ = Some fs
        ∧ transforms_of d σ' = Some (fs ++ added [m])
        ∧ (__identity__ Q = SelectQuery →
             is_Some (strings_of (_tables D) σ')
             ∧ strings_of (_tables D) σ' = strings_of (_tables Q) σ
             ∧ strings_of (_columns D) σ' = strings_of (_columns Q) σ).
Proof.
  intros Hwf. pose proof Hwf as (Q & HQ & [fs Hfs] & Htab & Harr).
  destruct (call_carries m _ _ _ _ Hwf HQ Hfs)
    as (σ' & D & Hcall & Hc & HD & Hi & Hfs' & Hstr).
  exists σ', (length (objects σ)). split; [done|].
  pose proof Hc as (Hnew & (D0 & HD0 & Hr) & Hp & Hwf' & Hun).
  assert (D0 = D) as -> by congruence.
  split_and!; try done.
  - apply lookup_lt_Some in HQ. lia.
  - intros p Hp'. by apply preserves_unchanged.
  - intros D' r fn HD' Hr'. assert (D' = D) as -> by congruence.
    assert (r = length (functionArrays σ)) as -> by congruence.
    apply preserves_unchanged; [|done].
    apply preserves_push_new; [by apply lookup_ge_None|done].
  - exists Q, D, fs. split_and!; try done.
    intros Hsel. destruct (Hstr Hsel) as [Ht Hcol]. split_and!; try done.
    rewrite Ht. destruct (Htab Hsel) as [a Ha]. rewrite Ha. cbn.
    apply Harr. by left.
Qed.

Lemma build_chain_carries ms σ q Q fs :
  well_formed σ q → objects σ !! q = Some Q →
  transforms_of q σ = Some fs →
  ∃ σ' d D,
    build_chain ms q σ = Some (σ', d)
    ∧ preserves σ σ'
    ∧ well_formed σ' d
    ∧ objects σ' !! d = Some D
    ∧ __identity__ D = __identity__ Q
    ∧ transforms_of d σ' = Some (fs ++ added ms)
    ∧ (__identity__ Q = SelectQuery →
         strings_of (_tables D) σ' = strings_of (_tables Q) σ
         ∧ strings_of (_columns D) σ' = strings_of (_columns Q) σ).
Proof.
  revert σ q Q fs. induction ms as [|m ms IH]; intros σ q Q fs Hwf HQ Hfs.
  { exists σ, q, Q. cbn. rewrite app_nil_r. split_and!; try done.
    apply preserves_refl. }
  destruct (call_carries m _ _ _ _ Hwf HQ Hfs)
    as (σ1 & D1 & Hcall & (_ & _ & Hp1 & Hwf1 & _) & HD1 & Hi1 & Hfs1 & Hs1).
  destruct (IH _ _ _ _ Hwf1 HD1 Hfs1)
    as (σ' & d & D & Hbuild & Hp & Hwf' & HD & Hi & Hfs' & Hs).
  exists σ', d, D. cbn -[call]. rewrite Hcall. cbn -[call].
  split_and!; try done.
  - by eapply preserves_trans.
  - congruence.
  - rewrite Hfs'. f_equal. rewrite <-app_assoc. f_equal.
    unfold added. cbn. by destruct m.
  - intros Hsel. destruct (Hs1 Hsel) as [<- <-]. apply Hs. congruence.
Qed.

(** X9: transforms are carried by every mutator.  Whatever chain of
    mutators is built on a query, the query built has the transforms of
    the receiver followed by those the [transform] calls of the chain
    added, in the order of the calls; its result is the rows piped through
    them in that order; the receiver keeps the transforms it had. *)
Theorem transforms_are_carried_by_every_mutator ms σ q Q fs :
  well_formed σ q → objects σ !! q = Some Q →
  transforms_of q σ = Some fs →
  ∃ σ' d,
    build_chain ms q σ = Some (σ', d)
    ∧ transforms_of d σ' = Some (fs ++ added ms)
    ∧ transforms_of q σ' = Some fs
    ∧ ∀ rows,
        _applyTransforms d σ' rows
        = Some (fold_left (λ transformed fn, fn transformed (__identity__ Q))
                          (fs ++ added ms) rows).
Proof.
  intros Hwf HQ Hfs.
  destruct (build_chain_carries ms _ _ _ _ Hwf HQ Hfs)
    as (σ' & d & D & Hbuild & Hp & Hwf' & HD & Hi & Hfs' & _).
  exists σ', d. split_and!; try done.
  - by apply (preserves_transforms_of σ).
  - intros rows. unfold _applyTransforms. rewrite HD, Hfs'. cbn.
    by rewrite Hi.
Qed.

(** X10: a select query stays a select of the same tables and columns.
    Whatever chain of mutators is built on a select query, the query built
    is a select query whose tables and columns hold what those of the
    receiver hold, and an absent columns array (all columns) stays
    absent. *)
Theorem a_select_query_keeps_its_tables_and_columns ms σ q Q :
  well_formed σ q → objects σ !! q = Some Q →
  __identity__ Q = SelectQuery →
  ∃ σ' d D,
    build_chain ms q σ = Some (σ', d)
    ∧ objects σ' !! d = Some D
    ∧ __identity__ D = SelectQuery
    ∧ is_Some (strings_of (_tables D) σ')
    ∧ strings_of (_tables D) σ' = strings_of (_tables Q) σ
    ∧ strings_of (_columns D) σ' = strings_of (_columns Q) σ.
Proof.
  intros Hwf HQ Hsel.
  pose proof Hwf as (Q' & HQ' & [fs Hfs] & Htab & Harr).
  assert (Q' = Q) as -> by congruence.
  destruct (build_chain_carries ms _ _ _ _ Hwf HQ Hfs)
    as (σ' & d & D & Hbuild & Hp & Hwf' & HD & Hi & _ & Hs).
  destruct (Hs Hsel) as [Ht Hc].
  exists σ', d, D. split_and!; try done.
  - congruence.
  - rewrite Ht. destruct (Htab Hsel) as [a Ha]. rewrite Ha. cbn.
    apply Harr. by left.
Qed.

(** ** Queries outside a transaction *)

(** X11: outside a transaction the transaction mixin is transparent.  For
    a query that is bound to no transaction and carries no override,
    validation passes, [_beforeTransactionExecution] and
    [_afterTransactionExecution] make no call on the pool and leave store
    and adapter as they are, [client()] finds no client of a transaction,
    and [_execute] settles as the [_super] it wraps does.  Where [_super]
    finds its connection is not the mixin's business and is not stated. *)
Theorem the_transaction_mixin_is_transparent_outside_a_transaction
    driver σ w q Q :
  objects σ !! q = Some Q →
  _transaction Q = None → _transactionSQLOverride Q = None →
  _validateBeforeTransactionExecution q σ = inr true
  ∧ _beforeTransactionExecution q σ w = (σ, w, inr ())
  ∧ (∀ w', _afterTransactionExecution q σ w' = (σ, w', inr ()))
  ∧ client q σ = None
  ∧ Transaction_execute driver q σ w = BaseQuery_execute driver q σ w.
Proof.
  intros HQ Ht Ho.
  assert (_validateBeforeTransactionExecution q σ = inr true) as Hval.
  { unfold _validateBeforeTransactionExecution. by rewrite HQ, Ho, Ht. }
  assert (_beforeTransactionExecution q σ w = (σ, w, inr ())) as Hbefore.
  { unfold _beforeTransactionExecution. rewrite Hval, HQ. cbn.
    by rewrite Ht. }
  assert (∀ w', _afterTransactionExecution q σ w' = (σ, w', inr ()))
    as Hafter.
  { intros w'. unfold _afterTransactionExecution. rewrite HQ. cbn.
    by rewrite Ht. }
  split_and!; try done.
  - unfold client. rewrite HQ. cbn. by rewrite Ht.
  - unfold Transaction_execute. rewrite Hbefore.
    unfold BaseQuery_execute.
    destruct (_statement q σ) as [e|stmt]; [done|].
    destruct (driver stmt) as [rows|]; [|done]. by rewrite Hafter.
Qed.

(** ** The MySQL adapter *)

(** X12: [shift] renumbers the days of the week from a count that starts
    on Sunday, as that of [Date#getDay], to the count of [WEEKDAY()], which
    starts on Monday: 0 becomes 6, every other day moves down by one, the
    result is a day of the week again, and adding one modulo 7 gives the
    day back, so that no two days get the same number. *)
Theorem weekdays_are_renumbered_from_monday n :
  0 ≤ n < 7 →
  0 ≤ MySQL.shift n < 7
  ∧ (n = 0 → MySQL.shift n = 6)
  ∧ (1 ≤ n → MySQL.shift n = n - 1)
  ∧ Z.rem (MySQL.shift n + 1) 7 = n.
Proof.
  intros Hn. unfold MySQL.shift.
  assert (n = 0 ∨ n = 1 ∨ n = 2 ∨ n = 3 ∨ n = 4 ∨ n = 5 ∨ n = 6) as Hc
    by lia.
  destruct Hc as [->|[->|[->|[->|[->|[->| ->]]]]]];
    repeat match goal with
           | |- context [Z.rem ?a ?b] =>
               let v := eval vm_compute in (Z.rem a b) in
               change (Z.rem a b) with v
           end; lia.
Qed.

Lemma replace_backslash_first a b :
  MySQL.occurs MySQL.backslash a = false →
  MySQL.replace_backslash (a +:+ String MySQL.backslash b)
  = a +:+ String MySQL.backslash (String MySQL.backslash b).
Proof.
  induction a as [|c a IH]; intros Ha; simpl in *; [done|].
  apply orb_false_iff in Ha as [Hc Ha]. rewrite Hc.
  change (String c a +:+ ?x) with (String c (a +:+ x)).
  f_equal. by apply IH.
Qed.

Lemma replace_backslash_none a :
  MySQL.occurs MySQL.backslash a = false → MySQL.replace_backslash a = a.
Proof.
  induction a as [|c a IH]; intros Ha; simpl in *; [done|].
  apply orb_false_iff in Ha as [Hc Ha]. rewrite Hc. f_equal. by apply IH.
Qed.

(** X13: [escape] doubles the first backslash of a string and leaves the
    rest of the string, further backslashes included, as it is; a string
    without backslash is handed to the base grammar unchanged. *)
Theorem escape_doubles_the_first_backslash_only
    {A} (_super : MySQL.Escapable → A) a b :
  MySQL.occurs MySQL.backslash a = false →
  MySQL.escape _super (MySQL.text (a +:+ String MySQL.backslash b))
  = _super (MySQL.text
              (a +:+ String MySQL.backslash (String MySQL.backslash b)))
  ∧ MySQL.escape _super (MySQL.text a) = _super (MySQL.text a).
Proof.
  intros Ha. unfold MySQL.escape.
  by rewrite replace_backslash_first, replace_backslash_none.
Qed.

(** ** The command line interface *)

(** X14: [run] applies an action only when a command was given and
    azul is installed locally; the action is that of the command, applied
    to the command object and the arguments captured, with the loaded
    azulfile before them for every command but [init], which is applied
    without it; and [run] never requires an azulfile that was not
    found. *)
Theorem an_action_runs_only_in_a_verified_environment env parsed :
  cli.run env parsed ≠ cli.help →
  cli.run env parsed ≠ cli.local_azul_not_found →
  cli.run env parsed ≠ cli.no_azulfile_found →
  cli.absent (cli.modulePath env) = false
  ∧ ∃ c positionals,
      parsed = Some (c, positionals)
      ∧ let captured :=
          cli.options (cli.name_of c)
          :: (cli.positional <$> positionals)
          ++ [cli.options (cli.name_of c)] in
        match c with
        | cli.init =>
            cli.run env parsed = cli.applied (cli.name_of c) captured
        | cli.migrate | cli.rollback | cli.generate =>
            ∃ path,
              cli.configPath env = Some path ∧ path ≠ ""
              ∧ cli.run env parsed
                = cli.applied (cli.name_of c) (cli.config path :: captured)
        end.
Proof.
  intros Hhelp Hlocal Hfile.
  destruct parsed as [[c positionals]|]; [|done].
  unfold cli.run, cli.verifyEnvironment in *.
  destruct (cli.absent (cli.modulePath env)); [done|]. split; [done|].
  exists c, positionals. split; [done|].
  destruct c; cbn in *; rewrite ?andb_false_r, ?andb_true_r in *; [done|..];
    (destruct (cli.configPath env) as [path|]; cbn in *; [|done];
     case_bool_decide; cbn in *; [done|]; by exists path).
Qed.

(** * Further statements at concrete inputs *)

(** X1 at [commit()] on the entry query of [entry_store]. *)
Lemma terminal_statement_witness :
  ((call_commit = call_commit ∧ commit_sql = commit_sql
    ∨ call_commit = call_rollback ∧ commit_sql = rollback_sql)
   ∧ well_formed entry_store 0
   ∧ entry_store.(objects) !! 0%nat
     = Some (set_transforms (Some 0%nat) (blank EntryQuery))
   ∧ _transaction (set_transforms (Some 0%nat) (blank EntryQuery)) = None)
  ∧ ∃ σ' d,
      call call_commit 0 entry_store = Some (σ', d)
      ∧ (∀ t T, entry_store.(objects) !! t = Some T →
                objects σ' !! t = Some T)
      ∧ _validateBeforeTransactionExecution d σ'
        = inl (MustAssociate commit_sql)
      ∧ ∀ driver w,
          execute driver d σ' w = (σ', w, inl (MustAssociate commit_sql)).
Proof.
  split.
  - split_and!; [by left|exact entry_store_well_formed|reflexivity..].
  - exact (terminal_statement_needs_a_transaction call_commit commit_sql
             entry_store 0 (set_transforms (Some 0%nat) (blank EntryQuery))
             (or_introl (conj eq_refl eq_refl)) entry_store_well_formed
             eq_refl eq_refl).
Defined.

(** X2 at the committed transaction of [committed], on which a further
    [begin()] is built and a query is executed. *)
Lemma closed_transaction_stays_closed_witness :
  let s := mkTransactionState (Num 0) false false true None in
  let actions := [build call_begin 2%nat; run 3%nat] in
  (in_state committed.1 1 s ∧ closed s = true)
  ∧ ∃ s',
      in_state (perform one_row actions committed.1 committed.2).1 1 s'
      ∧ closed s' = true
      ∧ ∀ q,
          bound (perform one_row actions committed.1 committed.2).1 q 1
            None →
          ∃ e, _validateBeforeTransactionExecution q
                 (perform one_row actions committed.1 committed.2).1
               = inl e.
Proof.
  intros s actions.
  assert (in_state committed.1 1 s) as Hs by (eexists; split; reflexivity).
  split; [by split|].
  exact (closed_transaction_is_never_reopened one_row actions committed.1
           committed.2 1 s Hs eq_refl).
Defined.







Lemma begun_well_formed : well_formed begun.1 0.
Proof.
  eexists. split_and!; [reflexivity|by eexists|discriminate|].
  intros a [H|H]; discriminate H.
Defined.

Lemma begun_in_state :
  in_state begun.1 1
    (mkTransactionState (Num 1) false false false (Some 0%nat)).
Proof. eexists. split; reflexivity. Defined.

(** X5 at the entry query, bound to a transaction that has begun. *)
Lemma the_transaction_setter_witness :
  let s := mkTransactionState (Num 1) false false false (Some 0%nat) in
  let Q := set_transforms (Some 0%nat) (blank EntryQuery) in
  (well_formed begun.1 0 ∧ begun.1.(objects) !! 0%nat = Some Q
   ∧ in_state begun.1 1 s)
  ∧ ∃ σ' d,
      transaction 1 0 begun.1 = Some (σ', d)
      ∧ begun.1.(objects) !! d = None
      ∧ bound σ' d 1 (_transactionSQLOverride Q)
      ∧ in_state σ' 1
          (match _transactionSQLOverride Q with
           | Some commit_sql | Some rollback_sql => release_state s
           | Some begin_sql | None => s
           end)
      ∧ ∀ p P, p ≠ 1%nat → begun.1.(objects) !! p = Some P →
               objects σ' !! p = Some P.
Proof.
  intros s Q. split.
  - split_and!; [exact begun_well_formed|reflexivity|exact begun_in_state].
  - exact (the_transaction_setter_counts_a_release_and_not_a_begin begun.1
             0 Q 1 s begun_well_formed eq_refl begun_in_state).
Defined.

(** X6 at [commit()] and the entry query, with a transaction that has
    begun. *)
Lemma release_commutes_witness :
  let s := mkTransactionState (Num 1) false false false (Some 0%nat) in
  let Q := set_transforms (Some 0%nat) (blank EntryQuery) in
  ((call_commit = call_commit ∧ commit_sql = commit_sql
    ∨ call_commit = call_rollback ∧ commit_sql = rollback_sql)
   ∧ well_formed begun.1 0 ∧ begun.1.(objects) !! 0%nat = Some Q
   ∧ _transaction Q = None ∧ _transactionSQLOverride Q = None
   ∧ in_state begun.1 1 s)
  ∧ ∃ σ1 d1 σ2 d2,
      build_chain [call_commit; call_transaction 1] 0 begun.1
      = Some (σ1, d1)
      ∧ build_chain [call_transaction 1; call_commit] 0 begun.1
        = Some (σ2, d2)
      ∧ bound σ1 d1 1 (Some commit_sql) ∧ in_state σ1 1 (release_state s)
      ∧ bound σ2 d2 1 (Some commit_sql) ∧ in_state σ2 1 (release_state s).
Proof.
  intros s Q. split.
  - split_and!; [by left|exact begun_well_formed|reflexivity..
                |exact begun_in_state].
  - exact (release_commutes_with_the_transaction_setter call_commit
             commit_sql begun.1 0 Q 1 s (or_introl (conj eq_refl eq_refl))
             begun_well_formed eq_refl eq_refl eq_refl begun_in_state).
Defined.

(** X7 at the entry query, with a transaction that has begun. *)
Lemma begin_before_the_setter_witness :
  let s := mkTransactionState (Num 1) false false false (Some 0%nat) in
  let Q := set_transforms (Some 0%nat) (blank EntryQuery) in
  (well_formed begun.1 0 ∧ begun.1.(objects) !! 0%nat = Some Q
   ∧ _transaction Q = None ∧ _transactionSQLOverride Q = None
   ∧ in_state begun.1 1 s)
  ∧ ∃ σ1 d1 σ2 d2,
      build_chain [call_begin; call_transaction 1] 0 begun.1 = Some (σ1, d1)
      ∧ build_chain [call_transaction 1; call_begin] 0 begun.1
        = Some (σ2, d2)
      ∧ bound σ1 d1 1 (Some begin_sql) ∧ in_state σ1 1 s
      ∧ bound σ2 d2 1 (Some begin_sql) ∧ in_state σ2 1 (acquire_state s)
      ∧ acquire_state s ≠ s.
Proof.
  intros s Q. split.
  - split_and!; [exact begun_well_formed|reflexivity..|exact begun_in_state].
  - exact (begin_before_the_transaction_setter_is_not_counted begun.1 0 Q 1
             s begun_well_formed eq_refl eq_refl eq_refl begun_in_state).
Defined.


(** X9 at
    [select(...).transform(first_row).limit(1).begin()
       .transform(count_rows)]. *)
Lemma transforms_are_carried_witness :
  let Q :=
    set_columns (Some 1%nat)
      (set_tables (Some 0%nat)
         (set_transforms (Some 0%nat) (blank SelectQuery))) in
  let ms :=
    [call_transform first_row; call_limit 1; call_begin;
     call_transform count_rows] in
  (well_formed select_store 0 ∧ select_store.(objects) !! 0%nat = Some Q
   ∧ transforms_of 0 select_store = Some [])
  ∧ ∃ σ' d,
      build_chain ms 0 select_store = Some (σ', d)
      ∧ transforms_of d σ' = Some ([] ++ added ms)
      ∧ transforms_of 0 σ' = Some []
      ∧ ∀ rows,
          _applyTransforms d σ' rows
          = Some (fold_left
                    (λ transformed fn, fn transformed (__identity__ Q))
                    ([] ++ added ms) rows).
Proof.
  intros Q ms. split.
  - split_and!; [exact select_store_well_formed|reflexivity..].
  - exact (transforms_are_carried_by_every_mutator ms select_store 0 Q []
             select_store_well_formed eq_refl eq_refl).
Defined.

(** X10 at [select('people', ['firstName', 'lastName']).limit(1).begin()]. *)
Lemma a_select_query_witness :
  let Q :=
    set_columns (Some 1%nat)
      (set_tables (Some 0%nat)
         (set_transforms (Some 0%nat) (blank SelectQuery))) in
  let ms := [call_limit 1; call_begin] in
  (well_formed select_store 0 ∧ select_store.(objects) !! 0%nat = Some Q
   ∧ __identity__ Q = SelectQuery)
  ∧ ∃ σ' d D,
      build_chain ms 0 select_store = Some (σ', d)
      ∧ objects σ' !! d = Some D
      ∧ __identity__ D = SelectQuery
      ∧ is_Some (strings_of (_tables D) σ')
      ∧ strings_of (_tables D) σ' = strings_of (_tables Q) select_store
      ∧ strings_of (_columns D) σ' = strings_of (_columns Q) select_store.
Proof.
  intros Q ms. split.
  - split_and!; [exact select_store_well_formed|reflexivity..].
  - exact (a_select_query_keeps_its_tables_and_columns ms select_store 0 Q
             select_store_well_formed eq_refl eq_refl).
Defined.

(** X11 at [select('people', ['firstName', 'lastName'])]. *)
Lemma the_transaction_mixin_is_transparent_witness :
  let Q :=
    set_columns (Some 1%nat)
      (set_tables (Some 0%nat)
         (set_transforms (Some 0%nat) (blank SelectQuery))) in
  (select_store.(objects) !! 0%nat = Some Q
   ∧ _transaction Q = None ∧ _transactionSQLOverride Q = None)
  ∧ _validateBeforeTransactionExecution 0 select_store = inr true
  ∧ _beforeTransactionExecution 0 select_store idle_adapter
    = (select_store, idle_adapter, inr ())
  ∧ (∀ w', _afterTransactionExecution 0 select_store w'
           = (select_store, w', inr ()))
  ∧ client 0 select_store = None
  ∧ Transaction_execute one_row 0 select_store idle_adapter
    = BaseQuery_execute one_row 0 select_store idle_adapter.
Proof.
  intros Q. split.
  - split_and!; reflexivity.
  - exact (the_transaction_mixin_is_transparent_outside_a_transaction
             one_row select_store idle_adapter 0 Q eq_refl eq_refl eq_refl).
Defined.

(** X12 at Sunday. *)
Lemma weekdays_witness :
  0 ≤ 0 < 7
  ∧ 0 ≤ MySQL.shift 0 < 7
  ∧ (0 = 0 → MySQL.shift 0 = 6)
  ∧ (1 ≤ 0 → MySQL.shift 0 = 0 - 1)
  ∧ Z.rem (MySQL.shift 0 + 1) 7 = 0.
Proof.
  assert (0 ≤ 0 < 7) as H by lia.
  split; [exact H|]. exact (weekdays_are_renumbered_from_monday 0 H).
Defined.

(** X13 at a path with two backslashes. *)
Lemma escape_witness :
  let a := "C:" in
  let b := "dir" +:+ String MySQL.backslash "file" in
  MySQL.occurs MySQL.backslash a = false
  ∧ MySQL.escape id (MySQL.text (a +:+ String MySQL.backslash b))
    = id (MySQL.text
            (a +:+ String MySQL.backslash (String MySQL.backslash b)))
  ∧ MySQL.escape id (MySQL.text a) = id (MySQL.text a).
Proof.
  intros a b. split; [reflexivity|].
  exact (escape_doubles_the_first_backslash_only id a b eq_refl).
Defined.

(** X14 at [azul migrate] in a project with a local install and an
    azulfile. *)
Lemma an_action_runs_witness :
  let env :=
    cli.mkEnv (Some "/app/node_modules/azul") (Some "/app/azulfile.js")
      "/app" in
  let parsed := Some (cli.migrate, []) in
  (cli.run env parsed ≠ cli.help
   ∧ cli.run env parsed ≠ cli.local_azul_not_found
   ∧ cli.run env parsed ≠ cli.no_azulfile_found)
  ∧ cli.absent (cli.modulePath env) = false
  ∧ ∃ c positionals,
      parsed = Some (c, positionals)
      ∧ let captured :=
          cli.options (cli.name_of c)
          :: (cli.positional <$> positionals)
          ++ [cli.options (cli.name_of c)] in
        match c with
        | cli.init =>
            cli.run env parsed = cli.applied (cli.name_of c) captured
        | cli.migrate | cli.rollback | cli.generate =>
            ∃ path,
              cli.configPath env = Some path ∧ path ≠ ""
              ∧ cli.run env parsed
                = cli.applied (cli.name_of c) (cli.config path :: captured)
        end.
Proof.
  intros env parsed.
  assert (cli.run env parsed ≠ cli.help) as H1 by discriminate.
  assert (cli.run env parsed ≠ cli.local_azul_not_found) as H2
    by discriminate.
  assert (cli.run env parsed ≠ cli.no_azulfile_found) as H3 by discriminate.
  split; [by split_and!|].
  exact (an_action_runs_only_in_a_verified_environment env parsed H1 H2 H3).
Defined.

(** C2 at
    [select('people', ['firstName', 'lastName']).transform(first_row)]. *)
Lemma mutators_witness :
  well_formed select_store 0
  ∧ ∃ σ' d,
      call (call_transform first_row) 0 select_store = Some (σ', d)
      ∧ d ≠ 0%nat
      ∧ select_store.(objects) !! d = None
      ∧ is_Some (objects σ' !! d)
      ∧ (∀ p, well_formed select_store p → unchanged select_store σ' p)
      ∧ unaliased σ' d 0
      ∧ (∀ D r fn, objects σ' !! d = Some D → _transforms D = Some r →
                   unchanged select_store (push r fn σ') 0)
      ∧ ∃ Q D fs,
          select_store.(objects) !! 0%nat = Some Q
          ∧ objects σ' !! d = Some D
          ∧ __identity__ D = __identity__ Q
          ∧ transforms_of 0 select_store = Some fs
          ∧ transforms_of d σ'
            = Some (fs ++ added [call_transform first_row])
          ∧ (__identity__ Q = SelectQuery →
               is_Some (strings_of (_tables D) σ')
               ∧ strings_of (_tables D) σ'
                 = strings_of (_tables Q) select_store
               ∧ strings_of (_columns D) σ'
                 = strings_of (_columns Q) select_store).
Proof.
  split; [exact select_store_well_formed|].
  exact (mutators_return_a_new_object_and_leave_the_receiver_unchanged
           (call_transform first_row) select_store 0
           select_store_well_formed).
Defined.
